(** * Singular value decomposition (svd.cpp): a shallow embedding in Rocq

    C's [double] is modelled by Rocq's primitive IEEE-754 binary64 floats
    ([PrimFloat.float]), so rounding, signed zeros, infinities and NaN behave
    as in the compiled program.  Indices are [Z] (C's [int]); a vector is a
    [list float] and a matrix a [list (list float)] read as [M[row][col]].
    C loops become the bounded iterators [loop_up] and [loop_down]. *)

From Stdlib Require Import ZArith List Lia Bool Permutation.
From Stdlib Require Import Floats.
Import ListNotations.

Open Scope Z_scope.

Definition matrix : Type := list (list float).

(** ** Arrays *)

Fixpoint upd {X : Type} (l : list X) (i : nat) (x : X) : list X :=
  match l, i with
  | [], _ => []
  | _ :: t, O => x :: t
  | h :: t, S i' => h :: upd t i' x
  end.

(** [v[i]] *)
Definition vget (v : list float) (i : Z) : float := nth (Z.to_nat i) v 0%float.

(** [v[i] = x] *)
Definition vset (v : list float) (i : Z) (x : float) : list float :=
  upd v (Z.to_nat i) x.

(** [v[i]] where [i] may fall outside the array: [None] is the
    out-of-bounds read of C. *)
Definition vget_opt (v : list float) (i : Z) : option float :=
  if (0 <=? i) && (i <? Z.of_nat (length v)) then Some (nth (Z.to_nat i) v 0%float)
  else None.

(** [M[r][c]] *)
Definition mget (M : matrix) (r c : Z) : float := vget (nth (Z.to_nat r) M []) c.

(** [M[r][c] = x] *)
Definition mset (M : matrix) (r c : Z) (x : float) : matrix :=
  upd M (Z.to_nat r) (vset (nth (Z.to_nat r) M []) c x).

Definition zeros (k : Z) : list float := repeat 0%float (Z.to_nat k).
Definition zeros_mat (r c : Z) : matrix := repeat (zeros c) (Z.to_nat r).

(** ** Loops *)

Fixpoint for_up {St : Type} (cnt : nat) (i : Z) (body : Z -> St -> St) (s : St) : St :=
  match cnt with
  | O => s
  | S c => for_up c (i + 1) body (body i s)
  end.

(** [for (i = a; i < b; i++) body] *)
Definition loop_up {St : Type} (a b : Z) (body : Z -> St -> St) (s : St) : St :=
  for_up (Z.to_nat (b - a)) a body s.

Fixpoint for_down {St : Type} (cnt : nat) (i : Z) (body : Z -> St -> St) (s : St) : St :=
  match cnt with
  | O => s
  | S c => for_down c (i - 1) body (body i s)
  end.

(** [for (i = a; i >= b; i--) body] *)
Definition loop_down {St : Type} (a b : Z) (body : Z -> St -> St) (s : St) : St :=
  for_down (Z.to_nat (a - b + 1)) a body s.

(** ** libm *)

(** [copysign(x, y)]: the magnitude of [x] with the sign of [y]. *)
Definition copysign (x y : float) : float :=
  if get_sign y then (- abs x)%float else abs x.

(** [hypot(x, y)] of libm (not part of the repository): the special values as
    C99 Annex F prescribes them (an infinite argument gives +inf, otherwise a
    NaN argument gives NaN); finite arguments by the scaled formula. *)
Definition hypot (x y : float) : float :=
  if is_infinity x || is_infinity y then infinity
  else if is_nan x || is_nan y then nan
  else
    let ax := abs x in
    let ay := abs y in
    let a := if (ax <? ay)%float then ay else ax in
    let b := if (ax <? ay)%float then ax else ay in
    if (a =? 0)%float then 0%float
    else (a * sqrt (1 + (b / a) * (b / a)))%float.

(** ** Constants *)

Definition SVD_NMAX : Z := 40.
Definition SVD_EPS : float := 4e-15%float.

(** ** Results: the two ways [svd] stops without returning *)

Inductive svd_error :=
| NonConvergence      (* quit("svd(): no convergence in %d iterations") *)
| OutOfBounds         (* a read outside an array *)
| AssertionFailure.   (* assert(m > 0 && n > 0) *)

Inductive result (X : Type) : Type :=
| Ok (x : X)
| Err (e : svd_error).
Arguments Ok {X} x.
Arguments Err {X} e.

(** ** [svd], lines 145-466 *)

Section Svd.
Variables n m : Z.

(** Householder reduction, column part (lines 177-202): returns the new
    [A], [g] and [scale]. *)
Definition hh_col (A : matrix) (i : Z) : matrix * float * float :=
  if i <? m then
    let scale := loop_up i m (fun k sc => (sc + abs (mget A k i))%float) 0%float in
    if negb (scale =? 0)%float then
      let '(A, s) :=
        loop_up i m (fun k '(A, s) =>
          let A := mset A k i (mget A k i / scale)%float in
          (A, (s + mget A k i * mget A k i)%float)) (A, 0%float) in
      let f := mget A i i in
      let g := (- copysign (sqrt s) f)%float in
      let h := (f * g - s)%float in
      let A := mset A i i (f - g)%float in
      let A :=
        if i <? n - 1 then
          loop_up (i + 1) n (fun j A =>
            let s := loop_up i m (fun k s => (s + mget A k i * mget A k j)%float) 0%float in
            let f := (s / h)%float in
            loop_up i m (fun k A => mset A k j (mget A k j + f * mget A k i)%float) A) A
        else A in
      let A := loop_up i m (fun k A => mset A k i (mget A k i * scale)%float) A in
      (A, g, scale)
    else (A, 0%float, scale)
  else (A, 0%float, 0%float).

(** Householder reduction, row part (lines 204-231): returns the new [A],
    [rv1], [g] and [scale]. *)
Definition hh_row (A : matrix) (rv1 : list float) (i : Z)
  : matrix * list float * float * float :=
  let l := i + 1 in
  if (i <? m) && (i <? n - 1) then
    let scale := loop_up l n (fun k sc => (sc + abs (mget A i k))%float) 0%float in
    if negb (scale =? 0)%float then
      let '(A, s) :=
        loop_up l n (fun k '(A, s) =>
          let A := mset A i k (mget A i k / scale)%float in
          (A, (s + mget A i k * mget A i k)%float)) (A, 0%float) in
      let f := mget A i l in
      let g := (- copysign (sqrt s) f)%float in
      let h := (f * g - s)%float in
      let A := mset A i l (f - g)%float in
      let rv1 := loop_up l n (fun k rv1 => vset rv1 k (mget A i k / h)%float) rv1 in
      let A :=
        loop_up l m (fun j A =>
          let s := loop_up l n (fun k s => (s + mget A j k * mget A i k)%float) 0%float in
          loop_up l n (fun k A => mset A j k (mget A j k + s * vget rv1 k)%float) A) A in
      let A := loop_up l n (fun k A => mset A i k (mget A i k * scale)%float) A in
      (A, rv1, g, scale)
    else (A, rv1, 0%float, scale)
  else (A, rv1, 0%float, 0%float).

(** The variables the Householder loop carries from one [i] to the next. *)
Record hstate := HS {
  hA : matrix; hw : list float; hrv1 : list float;
  hg : float; hscale : float; htst1 : float }.

(** One pass of the Householder loop (lines 165-237). *)
Definition hh_step (i : Z) (st : hstate) : hstate :=
  let rv1 := vset (hrv1 st) i (hscale st * hg st)%float in
  let '(A, g, scale) := hh_col (hA st) i in
  let w := vset (hw st) i (scale * g)%float in
  let '(A, rv1, g, scale) := hh_row A rv1 i in
  let tmp := (abs (vget w i) + abs (vget rv1 i))%float in
  let tst1 := if (tmp <? htst1 st)%float then htst1 st else tmp in
  HS A w rv1 g scale tst1.

(** Lines 162-237. *)
Definition householder (A : matrix) : hstate :=
  loop_up 0 n hh_step (HS A (zeros n) (zeros n) 0%float 0%float 0%float).

(** Accumulation of right-hand transformations (lines 246-276); the loop
    carries [V], [g] and [l]. *)
Definition acc_right_step (A : matrix) (rv1 : list float) (i : Z)
  (st : matrix * float * Z) : matrix * float * Z :=
  let '(V, g, l) := st in
  let V :=
    if i <? n - 1 then
      let V :=
        if negb (g =? 0)%float then
          let V := loop_up l n (fun j V =>
                     mset V j i ((mget A i j / mget A i l) / g)%float) V in
          loop_up l n (fun j V =>
            let s := loop_up l n (fun k s => (s + mget A i k * mget V k j)%float) 0%float in
            loop_up l n (fun k V => mset V k j (mget V k j + s * mget V k i)%float) V) V
        else V in
      loop_up l n (fun j V => mset (mset V i j 0%float) j i 0%float) V
    else V in
  let V := mset V i i 1%float in
  (V, vget rv1 i, i).

Definition acc_right (A : matrix) (rv1 : list float) (g : float) (l : Z) (V : matrix)
  : matrix * float * Z :=
  loop_down (n - 1) 0 (acc_right_step A rv1) (V, g, l).

(** Accumulation of left-hand transformations (lines 285-315). *)
Definition acc_left_step (w : list float) (i : Z) (A : matrix) : matrix :=
  let l := i + 1 in
  let g := vget w i in
  let A := if negb (i =? n - 1) then loop_up l n (fun j A => mset A i j 0%float) A else A in
  let A :=
    if negb (g =? 0)%float then
      let A := loop_up l n (fun j A =>
                 let s := loop_up l m (fun k s => (s + mget A k i * mget A k j)%float) 0%float in
                 let f := ((s / mget A i i) / g)%float in
                 loop_up i m (fun k A => mset A k j (mget A k j + f * mget A k i)%float) A) A in
      loop_up i m (fun j A => mset A j i (mget A j i / g)%float) A
    else loop_up i m (fun j A => mset A j i 0%float) A in
  mset A i i (mget A i i + 1)%float.

Definition acc_left (w : list float) (A : matrix) : matrix :=
  loop_down (Z.min m n - 1) 0 (acc_left_step w) A.


(** Diagonalization of the bidiagonal form (lines 324-458).  The state the
    sweeps transform: [A] (becoming U), [V], [w] and [rv1]. *)
Record dstate := DS { dA : matrix; dV : matrix; dw : list float; drv1 : list float }.

(** [fabs(x) + tst1 == tst1] *)
Definition negligible (tst1 x : float) : bool := ((abs x + tst1) =? tst1)%float.

(** The splitting search (lines 342-357), from [l] downwards; [l1] is the
    current value of the variable [l1].  It returns the final [l], [l1] and
    [docancellation].  [w[l - 1]] is read with [vget_opt]: at [l = 0] that
    read is outside [w]. *)
Fixpoint split_search (fuel : nat) (tst1 : float) (w rv1 : list float) (l l1 : Z)
  : result (Z * Z * bool) :=
  match fuel with
  | O => Ok (l, l1, true)
  | S fu =>
      if negligible tst1 (vget rv1 l) then Ok (l, l1, false)
      else
        let l1 := l - 1 in
        match vget_opt w (l - 1) with
        | None => Err OutOfBounds
        | Some wl =>
            if negligible tst1 wl then Ok (l, l1, true)
            else split_search fu tst1 w rv1 (l - 1) l1
        end
  end.

(** [for (j = 0; j < cnt; j++) { y = M[j][c1]; z = M[j][c2];
      M[j][c1] = y * c + z * s; M[j][c2] = z * c - y * s; }] *)
Definition rotate (cnt : Z) (c1 c2 : Z) (c s : float) (M : matrix) : matrix :=
  loop_up 0 cnt (fun j M =>
    let y := mget M j c1 in
    let z := mget M j c2 in
    mset (mset M j c1 (y * c + z * s)%float) j c2 (z * c - y * s)%float) M.

(** The cancellation of [rv1[l]] (lines 361-382), [i] running from [l] to
    [k]. *)
Fixpoint cancel_loop (fuel : nat) (tst1 : float) (l1 i : Z) (c s : float)
  (A : matrix) (w rv1 : list float) : matrix * list float * list float :=
  match fuel with
  | O => (A, w, rv1)
  | S fu =>
      let f := (s * vget rv1 i)%float in
      let rv1 := vset rv1 i (c * vget rv1 i)%float in
      if negligible tst1 f then (A, w, rv1)
      else
        let g := vget w i in
        let h := hypot f g in
        let w := vset w i h in
        let c := (g / h)%float in
        let s := (- f / h)%float in
        let A := rotate m l1 i c s A in
        cancel_loop fu tst1 l1 (i + 1) c s A w rv1
  end.

(** One pass of the QR transformation loop (lines 405-442), for [i1]; the
    loop carries [A], [V], [w], [rv1], [c], [s], [f] and [x]. *)
Definition qr_step (i1 : Z)
  (st : matrix * matrix * list float * list float * float * float * float * float)
  : matrix * matrix * list float * list float * float * float * float * float :=
  let '(A, V, w, rv1, c, s, f, x) := st in
  let i := i1 + 1 in
  let g := vget rv1 i in
  let y := vget w i in
  let h := (s * g)%float in
  let g := (c * g)%float in
  let z := hypot f h in
  let rv1 := vset rv1 i1 z in
  let c := (f / z)%float in
  let s := (h / z)%float in
  let f := (x * c + g * s)%float in
  let g := (g * c - x * s)%float in
  let h := (y * s)%float in
  let y := (y * c)%float in
  let V := rotate n i1 i c s V in
  let z := hypot f h in
  let w := vset w i1 z in
  let '(c, s) := if negb (z =? 0)%float then ((f / z)%float, (h / z)%float) else (c, s) in
  let f := (c * g + s * y)%float in
  let x := (c * y - s * g)%float in
  let A := rotate m i1 i c s A in
  (A, V, w, rv1, c, s, f, x).

(** The shift and the QR transformation, when [l <> k] (lines 388-445). *)
Definition qr_sweep (l k : Z) (A V : matrix) (w rv1 : list float) : dstate :=
  let k1 := k - 1 in
  let z := vget w k in
  let x := vget w l in
  let y := vget w k1 in
  let g := vget rv1 k1 in
  let h := vget rv1 k in
  let f := (0.5 * (((g + z) / h) * ((g - z) / y) + y / h - h / y))%float in
  let g := hypot f 1 in
  let f := (x - (z / x) * z + (h / x) * (y / (f + copysign g f) - h))%float in
  let '(A, V, w, rv1, _, _, f, x) := loop_up l k qr_step (A, V, w, rv1, 1%float, 1%float, f, x) in
  let rv1 := vset (vset rv1 l 0%float) k f in
  let w := vset w k x in
  DS A V w rv1.

(** [for (j = 0; j < n; j++) V[j][k] = -V[j][k];] *)
Definition negate_column (k : Z) (V : matrix) : matrix :=
  loop_up 0 n (fun j V => mset V j k (- mget V j k)%float) V.

(** The body of the [while (1)] loop after the iteration count (lines
    342-456): [true] when it breaks, i.e. when [l == k]. *)
Definition sweep (tst1 : float) (k : Z) (st : dstate) : result (dstate * bool) :=
  match split_search (Z.to_nat (k + 1)) tst1 (dw st) (drv1 st) k (-1) with
  | Err e => Err e
  | Ok (l, l1, docancellation) =>
      let '(A, w, rv1) :=
        if docancellation
        then cancel_loop (Z.to_nat (k - l + 1)) tst1 l1 l 0%float 1%float (dA st) (dw st) (drv1 st)
        else (dA st, dw st, drv1 st) in
      let z := vget w k in
      if negb (l =? k) then Ok (qr_sweep l k A (dV st) w rv1, false)
      else if (z <? 0)%float
           then Ok (DS A (negate_column k (dV st)) (vset w k (- z)%float) rv1, true)
           else Ok (DS A (dV st) w rv1, true)
  end.

(** The [while (1)] loop for one target index [k] (lines 333-457), [its]
    counting its passes. *)
Fixpoint kloop (fuel : nat) (its : Z) (tst1 : float) (k : Z) (st : dstate) : result dstate :=
  match fuel with
  | O => Err NonConvergence
  | S fu =>
      let its := its + 1 in
      if its >? SVD_NMAX then Err NonConvergence
      else
        match sweep tst1 k st with
        | Err e => Err e
        | Ok (st', true) => Ok st'
        | Ok (st', false) => kloop fu its tst1 k st'
        end
  end.

Definition diag_k (tst1 : float) (k : Z) (st : dstate) : result dstate :=
  kloop (Z.to_nat SVD_NMAX + 1) 0 tst1 k st.

(** [for (k = ...; k >= 0; k--)], [cnt] targets from [k] down. *)
Fixpoint diag_targets (tst1 : float) (cnt : nat) (k : Z) (st : dstate) : result dstate :=
  match cnt with
  | O => Ok st
  | S c =>
      match diag_k tst1 k st with
      | Err e => Err e
      | Ok st' => diag_targets tst1 c (k - 1) st'
      end
  end.

(** The state the diagonalization starts from, after lines 151-315. *)
Definition svd_prepare (A : matrix) : float * dstate :=
  let h := householder A in
  let '(V, _, _) := acc_right (hA h) (hrv1 h) (hg h) n (zeros_mat n n) in
  let U := acc_left (hw h) (hA h) in
  (htst1 h, DS U V (hw h) (hrv1 h)).

(** [svd(A, n, m, w, V)]: on return [A] holds U; the result is (U, w, V). *)
Definition svd (A : matrix) : result (matrix * list float * matrix) :=
  if negb ((0 <? m) && (0 <? n)) then Err AssertionFailure
  else
    let '(tst1, st) := svd_prepare A in
    match diag_targets tst1 (Z.to_nat n) (n - 1) st with
    | Err e => Err e
    | Ok st' => Ok (dA st', dw st', dV st')
    end.

End Svd.

(** ** [sortvector] and [svd_sort], lines 43-76 and 480-523 *)

(** [cmp_iv] on the two values the [indexedvalue]s point to. *)
Definition cmp_iv (v1 v2 : float) : Z :=
  if (v2 <? v1)%float then -1
  else if (v1 <? v2)%float then 1
  else 0.

(** [pos[i]] *)
Definition pget (pos : list Z) (i : Z) : Z := nth (Z.to_nat i) pos 0.

(** [a; a+1; ...; a+cnt-1] *)
Fixpoint zlist (a : Z) (cnt : nat) : list Z :=
  match cnt with
  | O => []
  | S c => a :: zlist (a + 1) c
  end.

(** [0; 1; ...; k-1] *)
Definition zseq (k : Z) : list Z := zlist 0 (Z.to_nat k).


(** Some entry of [v] is a NaN. *)
Definition has_nan (v : list float) : bool := existsb is_nan v.

(** Modelled from the C standard: [qsort] belongs to libc, not to this
    repository.  [sortvector(n, v, pos)] sorts the pairs [(&v[i], i)] with
    [qsort] and [cmp_iv] and reads the indices back, so [pos] is some
    permutation of [0..n-1].  When [v[0..n-1]] holds no NaN, [cmp_iv] is a
    total preorder and [pos] lists [v] in the order it prescribes; the order
    of elements that compare equal is unspecified (C11 7.22.5.2).  With a
    NaN, [cmp_iv] is not a consistent ordering (C11 7.22.5p4) and [qsort]
    guarantees no order at all (glibc leaves [[1; NaN; 2]] as it is). *)
Definition sortvector_spec (n : Z) (v : list float) (pos : list Z) : Prop :=
  Permutation pos (zseq n) /\
  (has_nan (firstn (Z.to_nat n) v) = false ->
   forall i j, 0 <= i < j -> j < n -> cmp_iv (vget v (pget pos i)) (vget v (pget pos j)) <= 0).

(** The test of line 505, [w[i] / wmax < SVD_EPS]. *)
Definition negligible_sv (wmax x : float) : bool := (x / wmax <? SVD_EPS)%float.

(** [svd_sort(A, n, m, w, V)] once [sortvector] has produced [pos]; the
    result is the new (A, w, V). *)
Definition svd_sort (n m : Z) (pos : list Z) (A : matrix) (w : list float) (V : matrix)
  : matrix * list float * matrix :=
  let wold := w in
  let aold := A in
  let vold := V in
  let wmax := vget w (pget pos 0) in
  loop_up 0 n (fun i '(A, w, V) =>
    let w := vset w i (vget wold (pget pos i)) in
    let w := if negligible_sv wmax (vget w i) then vset w i 0%float else w in
    let A := loop_up 0 m (fun j A => mset A j i (mget aold j (pget pos i))) A in
    let V := loop_up 0 n (fun j V => mset V j i (mget vold j (pget pos i))) V in
    (A, w, V)) (A, w, V).

(** ** [svd_invs], lines 525-555 *)

(** The buffers [svd_invs] is given: [AT], [A] (holding U), [w] and [V]. *)
Record inv_store := IS { iAT : matrix; iA : matrix; iw : list float; iV : matrix }.

(** [svd_invs(AT, A, n, m, w, V)]; [vtemp] is its local copy of [V]. *)
Definition svd_invs (n m : Z) (st : inv_store) : inv_store :=
  let A := iA st in
  let w := iw st in
  let V := iV st in
  let vtemp := V in
  let mnmin := Z.min n m in
  let vtemp :=
    loop_up 0 mnmin (fun i vtemp =>
      loop_up 0 n (fun j vtemp => mset vtemp j i (mget V j i / vget w i)%float) vtemp) vtemp in
  let AT :=
    loop_up 0 n (fun i AT =>
      loop_up 0 m (fun j AT =>
        let AT := mset AT i j 0%float in
        loop_up 0 mnmin (fun k AT =>
          mset AT i j (mget AT i j + mget vtemp i k * mget A j k)%float) AT) AT) (iAT st) in
  IS AT A w V.

(** ** Vocabulary of the properties *)

(** An [r] by [c] matrix. *)
Definition shape (M : matrix) (r c : Z) : Prop :=
  Z.of_nat (length M) = r /\ Forall (fun row => Z.of_nat (length row) = c) M.

(** [w[0] >= w[1] >= ... >= w[n-1]], every pair compared with C's [>=]. *)
Definition descending (n : Z) (w : list float) : Prop :=
  forall i j, 0 <= i < j -> j < n -> (vget w j <=? vget w i)%float = true.

(** The spec's pseudo-inverse entry
    [AT[i][j] = sum_{k < min(n,m)} (V[i][k] / w[k]) * U[j][k]], the sum
    taken in doubles from [k = 0] upwards, starting at [0.]. *)
Definition pinv_entry (n m : Z) (U : matrix) (w : list float) (V : matrix) (i j : Z) : float :=
  fold_left (fun acc k => (acc + (mget V i k / vget w k) * mget U j k)%float)
    (zseq (Z.min n m)) 0%float.

(** Up to [cnt] passes of the [while (1)] body for target [k], stopping at
    the first pass that breaks ([true]: the block collapsed, [l == k]). *)
Fixpoint sweeps (n m : Z) (tst1 : float) (k : Z) (cnt : nat) (st : dstate)
  : result (dstate * bool) :=
  match cnt with
  | O => Ok (st, false)
  | S c =>
      match sweep n m tst1 k st with
      | Err e => Err e
      | Ok (st', true) => Ok (st', true)
      | Ok (st', false) => sweeps n m tst1 k c st'
      end
  end.

(** The diagonalization of [svd n m A] reaches target index [k] in state
    [st]: the targets [n-1], ..., [k+1] have all converged. *)
Definition reaches (n m : Z) (A : matrix) (k : Z) (st : dstate) : Prop :=
  let '(tst1, st0) := svd_prepare n m A in
  diag_targets n m tst1 (Z.to_nat (n - 1 - k)) (n - 1) st0 = Ok st.

(** The matrices of a diagonalization state: U is [m] by [n], V is [n] by
    [n]. *)
Definition dshape (n m : Z) (st : dstate) : Prop := shape (dA st) m n /\ shape (dV st) n n.

(** The threshold of line 505 applied to an entry. *)
Definition thresholded (wmax x : float) : float :=
  if negligible_sv wmax x then 0%float else x.

(** On the entries of [v], thresholding against [wmax] keeps the order of C's
    [<=]: a consequence of IEEE division being monotone in its numerator. *)
Definition threshold_monotone (v : list float) (wmax : float) : bool :=
  forallb (fun x => forallb (fun y =>
    implb (y <=? x)%float (thresholded wmax y <=? thresholded wmax x)%float) v) v.


(** [w[j] < w[i]] for every [i < j < n]: no two entries tie. *)
Definition strictly_descending (n : Z) (w : list float) : bool :=
  forallb (fun i => forallb (fun j =>
    implb (i <? j) (vget w j <? vget w i)%float) (zseq n)) (zseq n).

(** Entry [(i, j)] of the product [U.W.V'] of the docstring of [svd]
    ("A = U.W.V'"), summed in doubles from [k = 0] upwards. *)
Definition usv_entry (n : Z) (U : matrix) (w : list float) (V : matrix) (i j : Z) : float :=
  fold_left (fun acc k => (acc + mget U i k * vget w k * mget V j k)%float) (zseq n) 0%float.

(** ** Lists and arrays *)

Lemma length_upd {X : Type} (l : list X) i x : length (upd l i x) = length l.
Proof.
  revert i; induction l as [|h t IH]; intros [|i]; simpl; auto.
Qed.

Lemma nth_upd {X : Type} (l : list X) i j x d :
  nth j (upd l i x) d = if (Nat.eqb i j && Nat.ltb i (length l))%bool then x else nth j l d.
Proof.
  revert i j; induction l as [|h t IH]; intros [|i] [|j]; simpl;
    rewrite ?Bool.andb_false_r; auto.
Qed.

Lemma vset_length v i x : length (vset v i x) = length v.
Proof. apply length_upd. Qed.

Lemma vget_vset v i j x :
  0 <= i -> 0 <= j ->
  vget (vset v i x) j = if (i =? j) && (i <? Z.of_nat (length v)) then x else vget v j.
Proof.
  intros Hi Hj. unfold vget, vset. rewrite nth_upd.
  destruct (Z.eqb_spec i j) as [->|Hne].
  - rewrite Nat.eqb_refl. simpl.
    destruct (Nat.ltb_spec (Z.to_nat j) (length v)), (Z.ltb_spec j (Z.of_nat (length v))); auto; lia.
  - replace (Nat.eqb (Z.to_nat i) (Z.to_nat j)) with false; auto.
    symmetry. apply Nat.eqb_neq. lia.
Qed.

Lemma mset_length M r c x : length (mset M r c x) = length M.
Proof. apply length_upd. Qed.

Lemma nth_In_default {X : Type} (l : list X) i d P :
  Forall P l -> P d -> P (nth i l d).
Proof.
  intros HF Hd. destruct (Nat.lt_ge_cases i (length l)).
  - rewrite Forall_forall in HF. apply HF, nth_In; auto.
  - rewrite nth_overflow; auto.
Qed.

Lemma shape_mset M R C r c x : shape M R C -> shape (mset M r c x) R C.
Proof.
  intros [HL HF]. split.
  - rewrite mset_length. auto.
  - unfold mset. rewrite Forall_forall in *. intros row Hin.
    apply In_nth with (d := []) in Hin. destruct Hin as [t [Ht <-]].
    rewrite length_upd in Ht. rewrite nth_upd.
    destruct (Nat.eqb _ _ && _)%bool eqn:E.
    + rewrite vset_length. apply andb_prop in E as [_ E].
      apply Nat.ltb_lt in E. apply HF, nth_In. lia.
    + apply HF, nth_In. lia.
Qed.

Lemma mget_mset M R C r c r' c' x :
  shape M R C -> 0 <= r < R -> 0 <= c < C -> 0 <= r' -> 0 <= c' ->
  mget (mset M r c x) r' c' = if (r =? r') && (c =? c') then x else mget M r' c'.
Proof.
  intros [HL HF] Hr Hc Hr' Hc'. unfold mget, mset. rewrite nth_upd.
  assert (Hrow : Z.of_nat (length (nth (Z.to_nat r) M [])) = C).
  { rewrite Forall_forall in HF. apply HF, nth_In. lia. }
  destruct (Z.eqb_spec r r') as [<-|Hne].
  - rewrite Nat.eqb_refl.
    replace (Nat.ltb (Z.to_nat r) (length M)) with true
      by (symmetry; apply Nat.ltb_lt; lia).
    simpl. rewrite vget_vset by lia.
    destruct (Z.eqb c c'); simpl; auto.
    replace (c <? Z.of_nat (length (nth (Z.to_nat r) M []))) with true; auto.
    symmetry; apply Z.ltb_lt; lia.
  - replace (Nat.eqb (Z.to_nat r) (Z.to_nat r')) with false; auto.
    symmetry. apply Nat.eqb_neq. lia.
Qed.

(** ** Loops *)

Lemma for_up_S {St : Type} c i (body : Z -> St -> St) s :
  for_up (S c) i body s = for_up c (i + 1) body (body i s).
Proof. reflexivity. Qed.

(** A loop whose body [k] writes the entries of region [R k] with values
    [val] that do not depend on the state, and leaves the other entries. *)
Lemma for_up_region {St : Type} (get : St -> Z -> Z -> float) (ok : St -> Prop)
  (R : Z -> Z -> Z -> bool) (val : Z -> Z -> float) (body : Z -> St -> St) cnt :
  forall k0 s,
  (forall k s, k0 <= k < k0 + Z.of_nat cnt -> ok s -> ok (body k s)) ->
  (forall k s r c, k0 <= k < k0 + Z.of_nat cnt -> ok s -> 0 <= r -> 0 <= c ->
     get (body k s) r c = if R k r c then val r c else get s r c) ->
  ok s ->
  ok (for_up cnt k0 body s) /\
  forall r c, 0 <= r -> 0 <= c ->
    get (for_up cnt k0 body s) r c =
    if existsb (fun k => R k r c) (zlist k0 cnt) then val r c else get s r c.
Proof.
  induction cnt as [|cnt IH]; intros k0 s Hok Hget Hs.
  - split; auto.
  - simpl zlist. rewrite for_up_S.
    destruct (IH (k0 + 1) (body k0 s)) as [IH1 IH2].
    + intros k s' Hk. apply Hok. lia.
    + intros k s' r c Hk. apply Hget. lia.
    + apply Hok; auto. lia.
    + split; auto. intros r c Hr Hc. rewrite IH2 by auto.
      rewrite (Hget k0 s r c) by (auto; lia). simpl.
      destruct (R k0 r c), (existsb _ _); auto.
Qed.

Lemma existsb_zlist_eq a cnt r :
  existsb (fun k => k =? r) (zlist a cnt) = (a <=? r) && (r <? a + Z.of_nat cnt).
Proof.
  revert a; induction cnt as [|cnt IH]; intros a; simpl.
  - destruct (Z.leb_spec a r), (Z.ltb_spec r (a + 0)); auto; lia.
  - rewrite IH. destruct (Z.eqb_spec a r), (Z.leb_spec a r), (Z.leb_spec (a + 1) r),
      (Z.ltb_spec r (a + 1 + Z.of_nat cnt)), (Z.ltb_spec r (a + Z.pos (Pos.of_succ_nat cnt)));
      simpl; auto; lia.
Qed.

Lemma existsb_false {X : Type} (l : list X) : existsb (fun _ => false) l = false.
Proof. induction l; auto. Qed.

Lemma for_up_inv {St : Type} (P : Z -> St -> Prop) (body : Z -> St -> St) cnt :
  forall i s, P i s ->
  (forall k s, i <= k < i + Z.of_nat cnt -> P k s -> P (k + 1) (body k s)) ->
  P (i + Z.of_nat cnt) (for_up cnt i body s).
Proof.
  induction cnt as [|cnt IH]; intros i s HP Hstep.
  - simpl. replace (i + 0) with i by lia. auto.
  - rewrite for_up_S.
    replace (i + Z.of_nat (S cnt)) with ((i + 1) + Z.of_nat cnt) by lia.
    apply IH.
    + apply Hstep; auto. lia.
    + intros k s' Hk. apply Hstep. lia.
Qed.

Lemma for_down_inv {St : Type} (P : Z -> St -> Prop) (body : Z -> St -> St) cnt :
  forall i s, P i s ->
  (forall k s, i - Z.of_nat cnt < k <= i -> P k s -> P (k - 1) (body k s)) ->
  P (i - Z.of_nat cnt) (for_down cnt i body s).
Proof.
  induction cnt as [|cnt IH]; intros i s HP Hstep.
  - simpl. replace (i - 0) with i by lia. auto.
  - simpl for_down.
    replace (i - Z.of_nat (S cnt)) with ((i - 1) - Z.of_nat cnt) by lia.
    apply IH.
    + apply Hstep; auto. lia.
    + intros k s' Hk. apply Hstep. lia.
Qed.

Lemma existsb_and_r {X : Type} (f : X -> bool) b l :
  existsb (fun k => f k && b) l = existsb f l && b.
Proof.
  induction l as [|h t IH]; simpl; [reflexivity|].
  rewrite IH. destruct (f h), b, (existsb f t); reflexivity.
Qed.

Lemma In_zlist a cnt k : In k (zlist a cnt) <-> a <= k < a + Z.of_nat cnt.
Proof.
  revert a; induction cnt as [|cnt IH]; intros a; simpl.
  - lia.
  - rewrite IH. lia.
Qed.

Lemma fold_left_ext_in {X Y : Type} (f g : Y -> X -> Y) (l : list X) (a : Y) :
  (forall acc x, In x l -> f acc x = g acc x) -> fold_left f l a = fold_left g l a.
Proof.
  revert a; induction l as [|h t IH]; intros a Hfg; simpl; auto.
  rewrite Hfg by (left; auto). apply IH. intros acc x Hx. apply Hfg. right; auto.
Qed.

(** The inner loops [for (j = 0; j < R; ++j) M[j][i] = f(j);]. *)
Lemma loop_set_column M R C i (f : Z -> float) :
  shape M R C -> 0 <= i < C ->
  shape (loop_up 0 R (fun j M => mset M j i (f j)) M) R C /\
  forall r c, 0 <= r < R -> 0 <= c < C ->
    mget (loop_up 0 R (fun j M => mset M j i (f j)) M) r c =
    if c =? i then f r else mget M r c.
Proof.
  intros HM Hi. unfold loop_up.
  assert (HR : 0 <= R) by (destruct HM; lia).
  replace (Z.of_nat (Z.to_nat (R - 0))) with R in * by lia.
  destruct (for_up_region mget (fun M => shape M R C)
              (fun k r c => (k =? r) && (c =? i)) (fun r _ => f r)
              (fun j M => mset M j i (f j)) (Z.to_nat (R - 0)) 0 M) as [H1 H2].
  - intros k s Hk Hs. apply shape_mset; auto.
  - intros k s r c Hk Hs Hr Hc. rewrite Z2Nat.id in Hk by lia.
    rewrite (mget_mset s R C) by first [exact Hs | lia].
    destruct (Z.eqb_spec k r), (Z.eqb_spec i c), (Z.eqb_spec c i);
      subst; simpl; auto; lia.
  - exact HM.
  - split; [exact H1|]. intros r c Hr Hc. rewrite H2 by lia.
    rewrite existsb_and_r, existsb_zlist_eq.
    rewrite Z2Nat.id by lia.
    destruct (Z.leb_spec 0 r), (Z.ltb_spec r (0 + (R - 0))); try lia;
      simpl; destruct (c =? i); reflexivity.
Qed.

(** The innermost loop of [svd_invs]: [for (k = k0; ...) M[i][j] += g(k);]. *)
Lemma for_up_accumulate M R C i j (g : Z -> float) cnt :
  forall k0, shape M R C -> 0 <= i < R -> 0 <= j < C ->
  let M' := for_up cnt k0 (fun k M => mset M i j (mget M i j + g k)%float) M in
  shape M' R C /\
  mget M' i j = fold_left (fun acc k => (acc + g k)%float) (zlist k0 cnt) (mget M i j) /\
  forall r c, 0 <= r < R -> 0 <= c < C -> (r <> i \/ c <> j) -> mget M' r c = mget M r c.
Proof.
  revert M; induction cnt as [|cnt IH]; intros M k0 HM Hi Hj; simpl.
  - auto.
  - destruct (IH (mset M i j (mget M i j + g k0)%float) (k0 + 1)) as [H1 [H2 H3]];
      [apply shape_mset; auto | auto | auto |].
    split; [exact H1|]. split.
    + rewrite H2, (mget_mset M R C) by first [exact HM | lia]. rewrite !Z.eqb_refl. reflexivity.
    + intros r c Hr Hc Hne. rewrite H3 by auto. rewrite (mget_mset M R C) by first [exact HM | lia].
      destruct (Z.eqb_spec i r), (Z.eqb_spec j c); simpl; auto; lia.
Qed.

(** ** [svd_invs] *)

Lemma ltb_to_nat c x : 0 <= c -> (c <? Z.of_nat (Z.to_nat x)) = (c <? x).
Proof.
  intros Hc. destruct (Z.ltb_spec c (Z.of_nat (Z.to_nat x))), (Z.ltb_spec c x); auto; lia.
Qed.

(** The first double loop: column [i] of [vtemp] is column [i] of [V]
    divided by [w[i]], for [i < min(n,m)]. *)
Lemma svd_invs_vtemp n m V w :
  shape V n n ->
  let vt := loop_up 0 (Z.min n m) (fun i vt =>
      loop_up 0 n (fun j vt => mset vt j i (mget V j i / vget w i)%float) vt) V in
  shape vt n n /\
  forall r c, 0 <= r < n -> 0 <= c < n ->
    mget vt r c = if c <? Z.min n m then (mget V r c / vget w c)%float else mget V r c.
Proof.
  intros HV vt. unfold vt, loop_up at 1.
  pose (P := fun k vt => shape vt n n /\
    forall r c, 0 <= r < n -> 0 <= c < n ->
      mget vt r c = if c <? k then (mget V r c / vget w c)%float else mget V r c).
  assert (HP : P (0 + Z.of_nat (Z.to_nat (Z.min n m - 0)))
     (for_up (Z.to_nat (Z.min n m - 0)) 0 (fun i vt =>
        loop_up 0 n (fun j vt => mset vt j i (mget V j i / vget w i)%float) vt) V)).
  { apply for_up_inv.
    - split; auto. intros r c Hr Hc. destruct (Z.ltb_spec c 0); auto; lia.
    - intros k s Hk [Hs Hget].
      assert (Hkn : 0 <= k < n) by lia.
      destruct (loop_set_column s n n k (fun j => (mget V j k / vget w k)%float) Hs Hkn)
        as [H1 H2].
      split; auto. intros r c Hr Hc. rewrite H2 by auto. rewrite Hget by auto.
      destruct (Z.eqb_spec c k), (Z.ltb_spec c k), (Z.ltb_spec c (k + 1)); subst;
        auto; lia. }
  destruct HP as [H1 H2]. split; auto. intros r c Hr Hc.
  rewrite H2 by auto. rewrite Z.add_0_l, Z.sub_0_r, ltb_to_nat by lia. reflexivity.
Qed.

(** The second double loop: [AT[i][j]] is the sum over [k < mnmin] of
    [vtemp[i][k] * A[j][k]], taken from [k = 0] upwards from [0.]. *)
Lemma svd_invs_AT n m mn vt A AT :
  shape AT n m ->
  let AT' := loop_up 0 n (fun i AT =>
      loop_up 0 m (fun j AT =>
        let AT := mset AT i j 0%float in
        loop_up 0 mn (fun k AT =>
          mset AT i j (mget AT i j + mget vt i k * mget A j k)%float) AT) AT) AT in
  forall i j, 0 <= i < n -> 0 <= j < m ->
    mget AT' i j = fold_left (fun acc k => (acc + mget vt i k * mget A j k)%float)
                     (zseq mn) 0%float.
Proof.
  intros HAT AT'.
  set (entry := fun i j => fold_left (fun acc k => (acc + mget vt i k * mget A j k)%float)
                     (zseq mn) 0%float).
  pose (P := fun i' AT => shape AT n m /\
    forall r c, 0 <= r < i' -> 0 <= c < m -> mget AT r c = entry r c).
  assert (HP : P (0 + Z.of_nat (Z.to_nat (n - 0))) AT').
  { unfold AT', loop_up at 1. apply for_up_inv.
    - split; auto. intros; lia.
    - intros i s Hi [Hs Hget]. unfold loop_up at 1.
      pose (Q := fun j' AT => shape AT n m /\
        (forall r c, 0 <= r < n -> 0 <= c < m -> r <> i -> mget AT r c = mget s r c) /\
        forall c, 0 <= c < j' -> mget AT i c = entry i c).
      assert (HQ : Q (0 + Z.of_nat (Z.to_nat (m - 0))) (for_up (Z.to_nat (m - 0)) 0
        (fun j AT => let AT := mset AT i j 0%float in
          loop_up 0 mn (fun k AT => mset AT i j (mget AT i j + mget vt i k * mget A j k)%float) AT) s)).
      { apply for_up_inv.
        - split; auto. split; auto. intros; lia.
        - intros j t Hj [Ht [Hother Hrow]]. cbv zeta. unfold loop_up.
          assert (Hj' : 0 <= j < m) by lia.
          assert (Hi' : 0 <= i < n) by lia.
          destruct (for_up_accumulate (mset t i j 0%float) n m i j
                      (fun k => (mget vt i k * mget A j k)%float) (Z.to_nat (mn - 0)) 0
                      (shape_mset _ _ _ _ _ _ Ht) Hi' Hj') as [H1 [H2 H3]].
          split; [exact H1|]. split.
          + intros r c Hr Hc Hne. rewrite H3 by auto.
            rewrite (mget_mset t n m) by first [exact Ht | lia].
            destruct (Z.eqb_spec i r); [lia|]. simpl. auto.
          + intros c Hc. destruct (Z.eq_dec c j) as [->|Hne].
            * rewrite H2, (mget_mset t n m) by first [exact Ht | lia].
              rewrite !Z.eqb_refl. simpl. unfold entry, zseq. rewrite Z.sub_0_r.
              reflexivity.
            * rewrite H3 by (auto; lia).
              rewrite (mget_mset t n m) by first [exact Ht | lia].
              destruct (Z.eqb_spec j c); [lia|]. rewrite andb_false_r.
              apply Hrow. lia. }
      destruct HQ as [Q1 [Q2 Q3]]. split; auto. intros r c Hr Hc.
      destruct (Z.eq_dec r i) as [->|Hne].
      + apply Q3. lia.
      + rewrite Q2 by lia. apply Hget; lia. }
  intros i j Hi Hj. destruct HP as [_ HP]. apply HP; lia.
Qed.

(** ** Claims on [svd_invs] *)

(** C2: for [0 <= i < n] and [0 <= j < m], [svd_invs] writes
    [AT[i][j] = sum_{k < min(n,m)} (V[i][k] / w[k]) * U[j][k]] (the sum in
    doubles from [k = 0], as [pinv_entry] spells it), given that [V] is the
    [n] by [n] buffer [vtemp] is copied from and [AT] an [n] by [m] buffer.
    No hypothesis on [w] is needed: a zero [w[k]] gives the IEEE quotient. *)
Theorem svd_invs_pinv n m st i j :
  shape (iV st) n n -> shape (iAT st) n m -> 0 <= i < n -> 0 <= j < m ->
  mget (iAT (svd_invs n m st)) i j = pinv_entry n m (iA st) (iw st) (iV st) i j.
Proof.
  intros HV HAT Hi Hj. unfold svd_invs. cbn [iAT].
  rewrite (svd_invs_AT n m (Z.min n m)) by auto.
  unfold pinv_entry. apply fold_left_ext_in. intros acc k Hk.
  unfold zseq in Hk. rewrite In_zlist in Hk.
  destruct (svd_invs_vtemp n m (iV st) (iw st) HV) as [_ Hvt].
  rewrite Hvt by lia. destruct (Z.ltb_spec k (Z.min n m)); [reflexivity | lia].
Qed.

Lemma svd_invs_pinv_witness :
  mget (iAT (svd_invs 2 1 (IS ([[0];[0]])%float ([[3; 5]])%float ([2; 4])%float ([[1; 0]; [0; 1]])%float))) 1 0 =
  pinv_entry 2 1 ([[3; 5]])%float ([2; 4])%float ([[1; 0]; [0; 1]])%float 1 0.
Proof.
  apply (svd_invs_pinv 2 1 (IS ([[0];[0]])%float ([[3; 5]])%float ([2; 4])%float ([[1; 0]; [0; 1]])%float) 1 0).
  - split; [reflexivity | repeat constructor].
  - split; [reflexivity | repeat constructor].
  - lia.
  - lia.
Defined.

(** C6: [svd_invs] leaves [A], [w] and [V] as they were: it writes only
    [AT] and its own scratch copy [vtemp] of [V]. *)
Theorem svd_invs_inputs_unchanged n m st :
  iA (svd_invs n m st) = iA st /\ iw (svd_invs n m st) = iw st /\
  iV (svd_invs n m st) = iV st.
Proof. repeat split. Qed.

(** ** IEEE facts used by the claims *)

Lemma div_core_self mx ex :
  SFdiv_core_binary prec emax (Zpos mx) ex (Zpos mx) ex = (2 ^ 53, -53, loc_Exact).
Proof.
  unfold SFdiv_core_binary.
  replace (Zdigits2 (Zpos mx) + ex - (Zdigits2 (Zpos mx) + ex)) with 0 by ring.
  replace (ex - ex) with 0 by ring.
  change (Z.min (fexp prec emax 0) 0) with (-53).
  change (0 - -53) with 53. cbv iota.
  rewrite Z.shiftl_mul_pow2 by lia.
  destruct (Z.div_eucl (Zpos mx * 2 ^ 53) (Zpos mx)) as [q r] eqn:E.
  assert (Hq : q = 2 ^ 53).
  { change q with (fst (q, r)). rewrite <- E. change (fst (Z.div_eucl _ _)) with
      ((Zpos mx * 2 ^ 53) / Zpos mx). rewrite Z.mul_comm, Z.div_mul; lia. }
  assert (Hr : r = 0).
  { change r with (snd (q, r)). rewrite <- E. change (snd (Z.div_eucl _ _)) with
      ((Zpos mx * 2 ^ 53) mod Zpos mx). rewrite Z.mul_comm, Z.mod_mul; lia. }
  subst. unfold new_location, new_location_even, new_location_odd.
  destruct (Z.even (Zpos mx)); reflexivity.
Qed.

(** [M / M < SVD_EPS] never holds: the quotient is [1.] or NaN. *)
Lemma self_not_negligible_sv x : negligible_sv x x = false.
Proof.
  unfold negligible_sv. rewrite ltb_spec, div_spec.
  destruct (Prim2SF x) as [s|s| |s mx ex]; try reflexivity.
  unfold SF64div, SFdiv. rewrite div_core_self, Bool.xorb_nilpotent.
  reflexivity.
Qed.

(** [-z] is not below [0.] when [z] is. *)
Lemma opp_of_negative z : (z <? 0)%float = true -> (- z <? 0)%float = false.
Proof.
  rewrite !ltb_spec, opp_spec.
  destruct (Prim2SF z) as [s|s| |s mx ex]; try destruct s; try reflexivity; discriminate.
Qed.

(** ** [svd_sort] *)

Lemma vget_vset_same v i x : 0 <= i < Z.of_nat (length v) -> vget (vset v i x) i = x.
Proof.
  intros Hi. rewrite vget_vset by lia. rewrite Z.eqb_refl.
  destruct (Z.ltb_spec i (Z.of_nat (length v))); [reflexivity | lia].
Qed.

Lemma vget_vset_other v i j x : 0 <= i -> 0 <= j -> i <> j -> vget (vset v i x) j = vget v j.
Proof.
  intros Hi Hj Hne. rewrite vget_vset by lia.
  destruct (Z.eqb_spec i j); [lia | reflexivity].
Qed.

(** What one call of [svd_sort] produces, for the permutation [pos] that
    [sortvector] handed back: column [i] of the three facets comes from
    column [pos[i]], and [w[i]] is thresholded against [wmax = w[pos[0]]]. *)
Lemma svd_sort_result n m pos A w V :
  shape A m n -> Z.of_nat (length w) = n -> shape V n n ->
  let '(A', w', V') := svd_sort n m pos A w V in
  shape A' m n /\ Z.of_nat (length w') = n /\ shape V' n n /\
  (forall i, 0 <= i < n ->
     vget w' i = thresholded (vget w (pget pos 0)) (vget w (pget pos i))) /\
  (forall j i, 0 <= j < m -> 0 <= i < n -> mget A' j i = mget A j (pget pos i)) /\
  (forall j i, 0 <= j < n -> 0 <= i < n -> mget V' j i = mget V j (pget pos i)).
Proof.
  intros HA Hw HV. unfold svd_sort, loop_up at 1.
  set (wmax := vget w (pget pos 0)).
  pose (P := fun k (s : matrix * list float * matrix) => let '(A', w', V') := s in
    shape A' m n /\ Z.of_nat (length w') = n /\ shape V' n n /\
    (forall i, 0 <= i < k -> vget w' i = thresholded wmax (vget w (pget pos i))) /\
    (forall j i, 0 <= j < m -> 0 <= i < k -> mget A' j i = mget A j (pget pos i)) /\
    (forall j i, 0 <= j < n -> 0 <= i < k -> mget V' j i = mget V j (pget pos i))).
  assert (Hm : 0 <= m) by (destruct HA; lia).
  assert (HP : P (0 + Z.of_nat (Z.to_nat (n - 0))) (for_up (Z.to_nat (n - 0)) 0 (fun i '(A0, w0, V0) =>
      let w1 := vset w0 i (vget w (pget pos i)) in
      let w2 := if negligible_sv wmax (vget w1 i) then vset w1 i 0%float else w1 in
      let A1 := loop_up 0 m (fun j A1 => mset A1 j i (mget A j (pget pos i))) A0 in
      let V1 := loop_up 0 n (fun j V1 => mset V1 j i (mget V j (pget pos i))) V0 in
      (A1, w2, V1)) (A, w, V))).
  { apply for_up_inv.
    - unfold P. refine (conj HA (conj Hw (conj HV _))). repeat split; intros; lia.
    - intros k [[A0 w0] V0] Hk [HA0 [Hw0 [HV0 [Iw [IA IV]]]]]. unfold P.
      cbv beta iota zeta.
      assert (Hkn : 0 <= k < n) by lia.
      destruct (loop_set_column A0 m n k (fun j => mget A j (pget pos k)) HA0 Hkn) as [A1 A2].
      destruct (loop_set_column V0 n n k (fun j => mget V j (pget pos k)) HV0 Hkn) as [V1 V2].
      assert (Hlen1 : Z.of_nat (length (vset w0 k (vget w (pget pos k)))) = n)
        by (rewrite vset_length; auto).
      split; [exact A1|]. split.
      { destruct (negligible_sv _ _); rewrite ?vset_length; auto. }
      split; [exact V1|]. split; [|split].
      + intros i Hi. destruct (Z.eq_dec i k) as [->|Hne].
        * unfold thresholded. rewrite vget_vset_same by lia.
          destruct (negligible_sv _ _).
          -- rewrite vget_vset_same by lia. reflexivity.
          -- rewrite vget_vset_same by lia. reflexivity.
        * assert (Hw1 : vget (vset w0 k (vget w (pget pos k))) i = vget w0 i)
            by (apply vget_vset_other; lia).
          destruct (negligible_sv _ _).
          -- rewrite vget_vset_other by lia. rewrite Hw1. apply Iw. lia.
          -- rewrite Hw1. apply Iw. lia.
      + intros j i Hj Hi. rewrite A2 by lia.
        destruct (Z.eqb_spec i k); [subst; reflexivity|]. apply IA; lia.
      + intros j i Hj Hi. rewrite V2 by lia.
        destruct (Z.eqb_spec i k); [subst; reflexivity|]. apply IV; lia. }
  replace (0 + Z.of_nat (Z.to_nat (n - 0))) with n in HP by (rewrite <- Hw; lia).
  exact HP.
Qed.

Lemma SFcompare_swap x y : SFcompare y x = option_map CompOpp (SFcompare x y).
Proof.
  destruct x as [sx|sx| |sx mx ex], y as [sy|sy| |sy my ey];
    try destruct sx; try destruct sy; simpl; auto;
    rewrite (Z.compare_antisym ex ey); destruct (ex ?= ey)%Z; simpl; auto;
    pose proof (Pos.compare_cont_antisym mx my Eq) as HA; simpl in HA;
    rewrite ?HA; reflexivity.
Qed.

Lemma ltb_asym x y : (x <? y)%float = true -> (y <? x)%float = false.
Proof.
  rewrite !ltb_spec. unfold SFltb. rewrite (SFcompare_swap (Prim2SF x) (Prim2SF y)).
  destruct (SFcompare (Prim2SF x) (Prim2SF y)) as [[]|]; simpl; congruence.
Qed.

Lemma not_nan_Prim2SF x : is_nan x = false -> Prim2SF x <> S754_nan.
Proof.
  unfold is_nan. rewrite eqb_spec. intros H E. rewrite E in H. discriminate.
Qed.

(** Between two numbers [y <= x] is the negation of [x < y]. *)
Lemma leb_negb_ltb x y : is_nan x = false -> is_nan y = false ->
  (y <=? x)%float = negb (x <? y)%float.
Proof.
  intros Hx Hy. apply not_nan_Prim2SF in Hx, Hy.
  rewrite leb_spec, ltb_spec. unfold SFleb, SFltb.
  rewrite (SFcompare_swap (Prim2SF x) (Prim2SF y)).
  destruct (Prim2SF x) as [sx|sx| |sx mx ex]; [| |congruence|];
  (destruct (Prim2SF y) as [sy|sy| |sy my ey]; [| |congruence|]);
  simpl; try destruct (SFcompare _ _) as [[]|]; try destruct sx; try destruct sy;
  simpl; try reflexivity;
  destruct (ex ?= ey)%Z; simpl; try reflexivity;
  destruct (Pos.compare_cont Eq mx my); reflexivity.
Qed.

Lemma is_nan_Prim2SF x : is_nan x = true -> Prim2SF x = S754_nan.
Proof.
  unfold is_nan. rewrite eqb_spec. unfold SFeqb.
  destruct (Prim2SF x) as [s|s| |s mx ex]; try destruct s; simpl; try discriminate; auto;
    rewrite Z.compare_refl, Pos.compare_cont_refl; discriminate.
Qed.

Lemma nan_div_not_negligible wmax x : is_nan x = true -> negligible_sv wmax x = false.
Proof.
  intros H. unfold negligible_sv. rewrite ltb_spec, div_spec, (is_nan_Prim2SF x H).
  reflexivity.
Qed.

Lemma thresholded_idem wmax x :
  thresholded wmax (thresholded wmax x) = thresholded wmax x.
Proof.
  unfold thresholded. destruct (negligible_sv wmax x) eqn:E.
  - destruct (negligible_sv wmax 0%float); reflexivity.
  - rewrite E. reflexivity.
Qed.

Lemma thresholded_self wmax : thresholded wmax wmax = wmax.
Proof. unfold thresholded. rewrite self_not_negligible_sv. reflexivity. Qed.

(** ** What [sortvector] guarantees *)

Lemma length_zlist a cnt : length (zlist a cnt) = cnt.
Proof. revert a; induction cnt; simpl; auto. Qed.

(** [pos] lists [v] from the largest value down: no later value is above an
    earlier one. *)
Lemma ltb_nan_l x y : is_nan x = true -> (x <? y)%float = false.
Proof. intros H. rewrite ltb_spec, (is_nan_Prim2SF x H). reflexivity. Qed.

Lemma ltb_nan_r x y : is_nan y = true -> (x <? y)%float = false.
Proof.
  intros H. rewrite ltb_spec, (is_nan_Prim2SF y H).
  destruct (Prim2SF x) as [[]|[]| |[] mx ex]; reflexivity.
Qed.

Lemma firstn_no_nan n w : has_nan w = false -> has_nan (firstn (Z.to_nat n) w) = false.
Proof.
  unfold has_nan. intros H.
  destruct (existsb is_nan (firstn (Z.to_nat n) w)) eqn:E; [|reflexivity].
  apply existsb_exists in E as [x [Hx Hn]]. rewrite <- H. symmetry.
  apply existsb_exists. exists x. split; [|exact Hn].
  rewrite <- (firstn_skipn (Z.to_nat n) w). apply in_or_app. left. exact Hx.
Qed.

(** No NaN among [v[0..n-1]], entry by entry. *)
Lemma no_nan_firstn n w :
  (forall k, 0 <= k < n -> is_nan (vget w k) = false) ->
  has_nan (firstn (Z.to_nat n) w) = false.
Proof.
  unfold has_nan. intros H.
  destruct (existsb is_nan (firstn (Z.to_nat n) w)) eqn:E; [|reflexivity].
  apply existsb_exists in E as [x [Hx Hn]].
  apply In_nth with (d := 0%float) in Hx as [k [Hk Hkx]].
  rewrite length_firstn in Hk. rewrite nth_firstn in Hkx.
  destruct (Nat.ltb_spec k (Z.to_nat n)); [|lia].
  specialize (H (Z.of_nat k) ltac:(lia)). unfold vget in H.
  rewrite Nat2Z.id, Hkx in H. congruence.
Qed.

Lemma firstn_no_nan_vget n w k :
  has_nan (firstn (Z.to_nat n) w) = false -> 0 <= k < n -> is_nan (vget w k) = false.
Proof.
  unfold has_nan, vget. intros H Hk.
  destruct (Nat.lt_ge_cases (Z.to_nat k) (length w)) as [Hl|Hl].
  - destruct (is_nan (nth (Z.to_nat k) w 0%float)) eqn:E; [|reflexivity].
    rewrite <- H. symmetry. apply existsb_exists.
    exists (nth (Z.to_nat k) w 0%float). split; [|exact E].
    assert (E2 : nth (Z.to_nat k) (firstn (Z.to_nat n) w) 0%float = nth (Z.to_nat k) w 0%float).
    { rewrite nth_firstn. destruct (Nat.ltb_spec (Z.to_nat k) (Z.to_nat n)); [reflexivity | lia]. }
    rewrite <- E2. apply nth_In. rewrite length_firstn. lia.
  - rewrite nth_overflow by exact Hl. reflexivity.
Qed.

Lemma strictly_descending_lt n w : strictly_descending n w = true ->
  forall a b, 0 <= a < b -> b < n -> (vget w b <? vget w a)%float = true.
Proof.
  intros Hsd a b Hab Hb. unfold strictly_descending in Hsd.
  rewrite forallb_forall in Hsd.
  assert (Ha : In a (zseq n)) by (unfold zseq; rewrite In_zlist; lia).
  assert (Hb' : In b (zseq n)) by (unfold zseq; rewrite In_zlist; lia).
  specialize (Hsd a Ha). rewrite forallb_forall in Hsd.
  pose proof (Hsd b Hb') as Himp.
  destruct (Z.ltb_spec a b); [exact Himp | lia].
Qed.

(** Two entries or more with no ties leave no room for a NaN. *)
Lemma strictly_descending_no_nan n w : strictly_descending n w = true -> 2 <= n ->
  has_nan (firstn (Z.to_nat n) w) = false.
Proof.
  intros Hsd Hn. apply no_nan_firstn. intros k Hk.
  destruct (is_nan (vget w k)) eqn:E; [|reflexivity].
  destruct (Z.eq_dec k 0) as [->|Hk0].
  - pose proof (strictly_descending_lt n w Hsd 0 1 ltac:(lia) ltac:(lia)) as H.
    rewrite (ltb_nan_r _ _ E) in H. discriminate.
  - pose proof (strictly_descending_lt n w Hsd 0 k ltac:(lia) ltac:(lia)) as H.
    rewrite (ltb_nan_l _ _ E) in H. discriminate.
Qed.

Lemma sortvector_order n w pos : sortvector_spec n w pos ->
  has_nan (firstn (Z.to_nat n) w) = false ->
  forall i j, 0 <= i < j -> j < n -> (vget w (pget pos i) <? vget w (pget pos j))%float = false.
Proof.
  intros [_ H] Hnan i j Hij Hj. specialize (H Hnan i j Hij Hj). unfold cmp_iv in H.
  destruct (vget w (pget pos j) <? vget w (pget pos i))%float eqn:E1.
  - apply ltb_asym. exact E1.
  - destruct (vget w (pget pos i) <? vget w (pget pos j))%float; [lia | reflexivity].
Qed.

Lemma perm_zseq_range n pos : Permutation pos (zseq n) ->
  forall i, 0 <= i < n -> 0 <= pget pos i < n.
Proof.
  intros HP i Hi.
  assert (Hlen : length pos = Z.to_nat n)
    by (rewrite (Permutation_length HP); unfold zseq; apply length_zlist).
  assert (Hin : In (pget pos i) pos) by (apply nth_In; lia).
  apply (Permutation_in _ HP) in Hin. unfold zseq in Hin. rewrite In_zlist in Hin. lia.
Qed.

Lemma sortvector_range n w pos : sortvector_spec n w pos ->
  forall i, 0 <= i < n -> 0 <= pget pos i < n.
Proof. intros [HP _]. apply perm_zseq_range. exact HP. Qed.

Lemma NoDup_zlist a cnt : NoDup (zlist a cnt).
Proof.
  revert a; induction cnt as [|cnt IH]; intros a; simpl; constructor; auto.
  rewrite In_zlist. lia.
Qed.

(** Two orders of a sorted [pos] with no ties are the same: with
    [w[j] < w[i]] for [i < j], the only permutation [sortvector] may return
    is the identity. *)
Lemma sortvector_unique n w pos :
  sortvector_spec n w pos -> strictly_descending n w = true ->
  forall i, 0 <= i < n -> pget pos i = i.
Proof.
  intros Hs Hsd.
  pose proof (strictly_descending_lt n w Hsd) as Hstrict.
  assert (Hlen : length pos = Z.to_nat n)
    by (destruct Hs as [HP _]; rewrite (Permutation_length HP); unfold zseq; apply length_zlist).
  assert (Hnd : NoDup pos)
    by (destruct Hs as [HP _]; apply (Permutation_NoDup (Permutation_sym HP));
        apply NoDup_zlist).
  (* [pos] is strictly increasing *)
  assert (Hinc : forall a b, 0 <= a < b -> b < n -> pget pos a < pget pos b).
  { intros a b Hab Hb.
    pose proof (sortvector_range n w pos Hs a ltac:(lia)) as Ra.
    pose proof (sortvector_range n w pos Hs b ltac:(lia)) as Rb.
    destruct (Z.lt_trichotomy (pget pos a) (pget pos b)) as [Hlt|[Heq|Hgt]]; auto.
    - exfalso. unfold pget in Heq.
      assert (Z.to_nat a = Z.to_nat b).
      { rewrite NoDup_nth with (d := 0) in Hnd. apply Hnd; [lia | lia | exact Heq]. }
      lia.
    - exfalso.
      pose proof (sortvector_order n w pos Hs (strictly_descending_no_nan n w Hsd ltac:(lia))
                    a b Hab Hb) as Ho.
      rewrite (Hstrict (pget pos b) (pget pos a)) in Ho by lia. discriminate. }
  assert (Hlo : forall d, Z.of_nat d < n -> Z.of_nat d <= pget pos (Z.of_nat d)).
  { induction d as [|d IH]; intros Hd.
    - change (Z.of_nat 0) with 0 in *.
      pose proof (sortvector_range n w pos Hs 0 ltac:(lia)). lia.
    - pose proof (Hinc (Z.of_nat d) (Z.of_nat (S d)) ltac:(lia) Hd).
      pose proof (IH ltac:(lia)). lia. }
  assert (Hhi : forall d, Z.of_nat d < n -> pget pos (n - 1 - Z.of_nat d) <= n - 1 - Z.of_nat d).
  { induction d as [|d IH]; intros Hd.
    - change (Z.of_nat 0) with 0 in *.
      pose proof (sortvector_range n w pos Hs (n - 1 - 0) ltac:(lia)). lia.
    - pose proof (Hinc (n - 1 - Z.of_nat (S d)) (n - 1 - Z.of_nat d) ltac:(lia) ltac:(lia)).
      pose proof (IH ltac:(lia)). lia. }
  intros i Hi.
  pose proof (Hlo (Z.to_nat i) ltac:(lia)) as L. rewrite Z2Nat.id in L by lia.
  pose proof (Hhi (Z.to_nat (n - 1 - i)) ltac:(lia)) as U.
  rewrite Z2Nat.id in U by lia. replace (n - 1 - (n - 1 - i)) with i in U by lia.
  lia.
Qed.

Lemma has_nan_false_In w x : has_nan w = false -> In x w -> is_nan x = false.
Proof.
  intros H Hin. destruct (is_nan x) eqn:E; auto.
  unfold has_nan in H. rewrite <- H. symmetry. apply existsb_exists. eauto.
Qed.

Lemma vget_In w i : 0 <= i < Z.of_nat (length w) -> In (vget w i) w.
Proof. intros Hi. unfold vget. apply nth_In. lia. Qed.

Lemma leb_nan_r x : (x <=? nan)%float = false.
Proof. rewrite leb_spec. destruct (Prim2SF x); reflexivity. Qed.

Lemma leb_nan_l x : (nan <=? x)%float = false.
Proof. rewrite leb_spec. reflexivity. Qed.

(** A concrete [sortvector_spec] on two or three entries. *)
Ltac pairs_upto_3 :=
  let i := fresh "i" in let j := fresh "j" in
  let Hij := fresh "Hij" in let Hj := fresh "Hj" in
  intros _ i j Hij Hj;
  first [ assert (i = 0 /\ j = 1) as [-> ->] by lia
        | assert ((i = 0 /\ j = 1) \/ (i = 0 /\ j = 2) \/ (i = 1 /\ j = 2))
            as [[-> ->]|[[-> ->]|[-> ->]]] by lia ];
  vm_compute; let Hc := fresh "Hc" in intro Hc; discriminate Hc.

Ltac solve_shape := split; [reflexivity | repeat constructor].

(** ** Claims on [svd_sort] *)

(** C3: after [svd_sort], [w[0]] is the largest value [wmax] the code read,
    [w] keeps its [n] entries, and every [w[i]] with [w[i] / w[0] < 4e-15]
    holds exactly [0.0]. *)
Theorem svd_sort_zeroes_negligible n m pos A w V :
  0 < n -> shape A m n -> Z.of_nat (length w) = n -> shape V n n ->
  let '(A', w', V') := svd_sort n m pos A w V in
  Z.of_nat (length w') = n /\ vget w' 0 = vget w (pget pos 0) /\
  forall i, 0 <= i < n -> negligible_sv (vget w' 0) (vget w' i) = true -> vget w' i = 0%float.
Proof.
  intros Hn HA Hw HV.
  pose proof (svd_sort_result n m pos A w V HA Hw HV) as R.
  destruct (svd_sort n m pos A w V) as [[A' w'] V'].
  destruct R as [_ [Hl [_ [Hw' _]]]].
  assert (H0 : vget w' 0 = vget w (pget pos 0))
    by (rewrite Hw' by lia; apply thresholded_self).
  split; [exact Hl|]. split; [exact H0|].
  intros i Hi. rewrite H0, (Hw' i Hi). unfold thresholded.
  destruct (negligible_sv _ (vget w (pget pos i))) eqn:E; auto.
  rewrite E. discriminate.
Qed.

Lemma svd_sort_zeroes_negligible_witness :
  let '(A', w', V') := svd_sort 2 1 [0; 1] ([[1; 2]])%float ([1; 1e-20])%float
                         ([[1; 0]; [0; 1]])%float in
  Z.of_nat (length w') = 2 /\ vget w' 0 = vget ([1; 1e-20])%float (pget [0; 1] 0) /\
  forall i, 0 <= i < 2 -> negligible_sv (vget w' 0) (vget w' i) = true -> vget w' i = 0%float.
Proof.
  apply (svd_sort_zeroes_negligible 2 1 [0; 1]); [lia | solve_shape | reflexivity | solve_shape].
Defined.

(** C4, as the code has it: when [w[0..n-1]] holds no NaN, the [pos] that
    [sortvector] returns lists [w] from the largest value down, in C's
    [>=] ([w[pos[j]] <= w[pos[i]]] for [i < j]); [cmp_iv] does not look at
    the indices and [qsort] is not stable, so the order among equal values
    is not fixed.  With a NaN in [w], [qsort] promises no order. *)
Theorem sortvector_lists_descending n w pos :
  sortvector_spec n w pos -> has_nan (firstn (Z.to_nat n) w) = false ->
  forall i j, 0 <= i < j -> j < n ->
    (vget w (pget pos j) <=? vget w (pget pos i))%float = true.
Proof.
  intros Hs Hnan i j Hij Hj.
  pose proof (sortvector_range n w pos Hs i ltac:(lia)) as Ri.
  pose proof (sortvector_range n w pos Hs j ltac:(lia)) as Rj.
  rewrite leb_negb_ltb by (apply (firstn_no_nan_vget n); auto).
  rewrite (sortvector_order n w pos Hs Hnan i j Hij Hj). reflexivity.
Qed.

Lemma sortvector_lists_descending_witness :
  PrimFloat.leb (vget ([1; 3; 2])%float (pget [1; 2; 0] 2))
                (vget ([1; 3; 2])%float (pget [1; 2; 0] 1)) = true.
Proof.
  apply (sortvector_lists_descending 3 ([1; 3; 2])%float [1; 2; 0]);
    [split | reflexivity | lia | lia].
  - vm_compute. apply Permutation_sym, (Permutation_cons_append [1; 2] 0).
  - pairs_upto_3.
Defined.

(** C4 fails: for [w = [1; 1]] the reversed order [pos = [1; 0]] meets the
    contract of [sortvector], and [svd_sort] then exchanges the two columns
    that carry the equal values. *)
Lemma sortvector_tie_reversed :
  sortvector_spec 2 ([1; 1])%float [1; 0] /\
  svd_sort 2 1 [1; 0] ([[3; 5]])%float ([1; 1])%float ([[1; 0]; [0; 1]])%float =
    (([[5; 3]])%float, ([1; 1])%float, ([[0; 1]; [1; 0]])%float).
Proof.
  split; [split|].
  - vm_compute. apply perm_swap.
  - pairs_upto_3.
  - vm_compute. reflexivity.
Qed.

(** C1, as the code has it: with [pos] from [sortvector], one permutation
    moves [w], the columns of [A] and the columns of [V] together
    ([w[i]] is [wold[pos[i]]] up to the threshold of line 505), and the
    returned [w] is non-increasing, provided [w] holds no NaN.  The
    hypothesis [threshold_monotone] is the IEEE fact that [x / wmax] is
    monotone in [x] (rounding is monotone), checked on the entries of [w]. *)
Theorem svd_sort_permutes_and_sorts n m pos A w V :
  shape A m n -> Z.of_nat (length w) = n -> shape V n n ->
  sortvector_spec n w pos -> has_nan w = false ->
  threshold_monotone w (vget w (pget pos 0)) = true ->
  let '(A', w', V') := svd_sort n m pos A w V in
  Permutation pos (zseq n) /\
  (forall i, 0 <= i < n -> vget w' i = thresholded (vget w (pget pos 0)) (vget w (pget pos i))) /\
  (forall j i, 0 <= j < m -> 0 <= i < n -> mget A' j i = mget A j (pget pos i)) /\
  (forall j i, 0 <= j < n -> 0 <= i < n -> mget V' j i = mget V j (pget pos i)) /\
  descending n w'.
Proof.
  intros HA Hw HV Hs Hnan Hmono.
  pose proof (svd_sort_result n m pos A w V HA Hw HV) as R.
  destruct (svd_sort n m pos A w V) as [[A' w'] V'].
  destruct R as [_ [_ [_ [Hw' [HA' HV']]]]].
  split; [apply Hs|]. split; [exact Hw'|]. split; [exact HA'|]. split; [exact HV'|].
  intros i j Hij Hj. rewrite (Hw' i ltac:(lia)), (Hw' j ltac:(lia)).
  set (x := vget w (pget pos i)). set (y := vget w (pget pos j)).
  assert (Hx : In x w) by (apply vget_In; pose proof (sortvector_range n w pos Hs i); lia).
  assert (Hy : In y w) by (apply vget_In; pose proof (sortvector_range n w pos Hs j); lia).
  assert (Hyx : (y <=? x)%float = true).
  { rewrite leb_negb_ltb by (eapply has_nan_false_In; eauto).
    unfold x, y. rewrite (sortvector_order n w pos Hs (firstn_no_nan n w Hnan) i j Hij Hj).
    reflexivity. }
  unfold threshold_monotone in Hmono. rewrite forallb_forall in Hmono.
  specialize (Hmono x Hx). rewrite forallb_forall in Hmono.
  specialize (Hmono y Hy). rewrite Hyx in Hmono. exact Hmono.
Qed.

Lemma svd_sort_permutes_and_sorts_witness :
  let '(A', w', V') := svd_sort 3 1 [1; 2; 0] ([[10; 30; 20]])%float ([1; 3; 2])%float
                         ([[1; 0; 0]; [0; 1; 0]; [0; 0; 1]])%float in
  Permutation [1; 2; 0] (zseq 3) /\
  (forall i, 0 <= i < 3 -> vget w' i = thresholded (vget ([1; 3; 2])%float (pget [1; 2; 0] 0))
                                         (vget ([1; 3; 2])%float (pget [1; 2; 0] i))) /\
  (forall j i, 0 <= j < 1 -> 0 <= i < 3 ->
     mget A' j i = mget ([[10; 30; 20]])%float j (pget [1; 2; 0] i)) /\
  (forall j i, 0 <= j < 3 -> 0 <= i < 3 ->
     mget V' j i = mget ([[1; 0; 0]; [0; 1; 0]; [0; 0; 1]])%float j (pget [1; 2; 0] i)) /\
  descending 3 w'.
Proof.
  apply (svd_sort_permutes_and_sorts 3 1 [1; 2; 0]);
    [solve_shape | reflexivity | solve_shape | split | vm_compute; reflexivity
    | vm_compute; reflexivity].
  - vm_compute. apply Permutation_sym, (Permutation_cons_append [1; 2] 0).
  - pairs_upto_3.
Defined.

(** C1 fails on the output of [svd] itself: for the 1 by 3 matrix
    [[0, 1e308, 1e308]] the Householder phase overflows and [svd] returns
    normally with [w = [0; NaN; 0]]; whichever permutation [sortvector]
    returns, the NaN survives the threshold and the sorted [w] is not
    non-increasing. *)
Lemma svd_sort_nan_not_descending :
  match svd 3 1 ([[0; 1e308; 1e308]])%float with
  | Ok (U, w, V) =>
      w = [0%float; nan; 0%float] /\
      forall pos, sortvector_spec 3 w pos -> ~ descending 3 (snd (fst (svd_sort 3 1 pos U w V)))
  | Err _ => False
  end.
Proof.
  remember (svd 3 1 ([[0; 1e308; 1e308]])%float) as r eqn:E.
  vm_compute in E. subst r. split; [reflexivity|].
  intros pos Hs Hdesc.
  match type of Hdesc with context [svd_sort 3 1 pos ?U ?w ?V] =>
    pose proof (svd_sort_result 3 1 pos U w V ltac:(solve_shape) eq_refl ltac:(solve_shape))
      as R;
    destruct (svd_sort 3 1 pos U w V) as [[U' w'] V']
  end.
  change (descending 3 w') in Hdesc.
  destruct R as [_ [_ [_ [Hw' _]]]].
  assert (Hin : In 1 pos)
    by (apply (Permutation_in _ (Permutation_sym (proj1 Hs))); vm_compute; auto).
  apply In_nth with (d := 0) in Hin. destruct Hin as [k [Hk Hnth]].
  assert (Hlen : length pos = 3%nat)
    by (rewrite (Permutation_length (proj1 Hs)); reflexivity).
  assert (Hnan : vget w' (Z.of_nat k) = nan).
  { rewrite Hw' by lia. unfold pget. rewrite Nat2Z.id, Hnth.
    unfold thresholded. rewrite nan_div_not_negligible by reflexivity. reflexivity. }
  destruct (Nat.eq_dec k 2) as [->|Hk2].
  - specialize (Hdesc 0 2 ltac:(lia) ltac:(lia)). simpl in Hnan.
    rewrite Hnan, leb_nan_l in Hdesc. discriminate.
  - specialize (Hdesc (Z.of_nat k) 2 ltac:(lia) ltac:(lia)).
    rewrite Hnan, leb_nan_r in Hdesc. discriminate.
Qed.

Lemma vector_ext v v' n :
  Z.of_nat (length v) = n -> Z.of_nat (length v') = n ->
  (forall i, 0 <= i < n -> vget v i = vget v' i) -> v = v'.
Proof.
  intros Hl Hl' H. apply nth_ext with (d := 0%float) (d' := 0%float); [lia|].
  intros k Hk. specialize (H (Z.of_nat k) ltac:(lia)). unfold vget in H.
  rewrite Nat2Z.id in H. exact H.
Qed.

Lemma matrix_ext M N R C :
  shape M R C -> shape N R C ->
  (forall r c, 0 <= r < R -> 0 <= c < C -> mget M r c = mget N r c) -> M = N.
Proof.
  intros [HlM HfM] [HlN HfN] H. apply nth_ext with (d := []) (d' := []); [lia|].
  intros k Hk. rewrite Forall_forall in HfM, HfN.
  apply (vector_ext _ _ C).
  - apply HfM, nth_In. lia.
  - apply HfN, nth_In. lia.
  - intros c Hc. specialize (H (Z.of_nat k) c ltac:(lia) Hc). unfold mget in H.
    rewrite Nat2Z.id in H. exact H.
Qed.

(** C8, as the code has it: a second [svd_sort] on the output of a first one
    changes nothing when the sorted [w] has no two equal entries (and no
    NaN): [sortvector] then has to return the identity, and the threshold
    has already been applied. *)
Theorem svd_sort_idempotent_without_ties n m pos pos2 A w V A1 w1 V1 :
  0 < n -> shape A m n -> Z.of_nat (length w) = n -> shape V n n ->
  svd_sort n m pos A w V = (A1, w1, V1) ->
  strictly_descending n w1 = true -> sortvector_spec n w1 pos2 ->
  svd_sort n m pos2 A1 w1 V1 = (A1, w1, V1).
Proof.
  intros Hn HA Hw HV E1 Hsd Hs2.
  pose proof (svd_sort_result n m pos A w V HA Hw HV) as R1. rewrite E1 in R1.
  destruct R1 as [HA1 [Hw1 [HV1 [Iw1 _]]]].
  pose proof (svd_sort_result n m pos2 A1 w1 V1 HA1 Hw1 HV1) as R2.
  destruct (svd_sort n m pos2 A1 w1 V1) as [[A2 w2] V2].
  destruct R2 as [HA2 [Hw2 [HV2 [Iw2 [IA2 IV2]]]]].
  pose proof (sortvector_unique n w1 pos2 Hs2 Hsd) as Hid.
  assert (EA : A2 = A1).
  { apply (matrix_ext A2 A1 m n HA2 HA1). intros r c Hr Hc.
    rewrite IA2, Hid by lia. reflexivity. }
  assert (EV : V2 = V1).
  { apply (matrix_ext V2 V1 n n HV2 HV1). intros r c Hr Hc.
    rewrite IV2, Hid by lia. reflexivity. }
  assert (Ew : w2 = w1).
  { apply (vector_ext w2 w1 n Hw2 Hw1). intros i Hi.
    rewrite Iw2, !Hid by lia.
    rewrite (Iw1 0 ltac:(lia)), thresholded_self, (Iw1 i Hi).
    apply thresholded_idem. }
  subst. reflexivity.
Qed.

Lemma svd_sort_idempotent_without_ties_witness :
  svd_sort 2 1 [0; 1] ([[2; 1]])%float ([3; 1])%float ([[0; 1]; [1; 0]])%float =
    (([[2; 1]])%float, ([3; 1])%float, ([[0; 1]; [1; 0]])%float).
Proof.
  apply (svd_sort_idempotent_without_ties 2 1 [1; 0] [0; 1] ([[1; 2]])%float ([1; 3])%float
           ([[1; 0]; [0; 1]])%float);
    [lia | solve_shape | reflexivity | solve_shape | vm_compute; reflexivity
    | vm_compute; reflexivity | split].
  - vm_compute. apply Permutation_refl.
  - pairs_upto_3.
Defined.

(** C8 fails: [([[3, 5]], [1; 1], I)] is what [svd_sort] returns for
    itself with [pos = [0; 1]], and on a second call [sortvector] may as
    well return [pos = [1; 0]] for the tied values, which exchanges the two
    columns of [A] and of [V]. *)
Lemma svd_sort_second_call_moves_columns :
  svd_sort 2 1 [0; 1] ([[3; 5]])%float ([1; 1])%float ([[1; 0]; [0; 1]])%float =
    (([[3; 5]])%float, ([1; 1])%float, ([[1; 0]; [0; 1]])%float) /\
  sortvector_spec 2 ([1; 1])%float [1; 0] /\
  svd_sort 2 1 [1; 0] ([[3; 5]])%float ([1; 1])%float ([[1; 0]; [0; 1]])%float <>
    (([[3; 5]])%float, ([1; 1])%float, ([[1; 0]; [0; 1]])%float).
Proof.
  split; [vm_compute; reflexivity|]. split; [split|].
  - vm_compute. apply perm_swap.
  - pairs_upto_3.
  - vm_compute. intro Hc. discriminate Hc.
Qed.

(** ** The diagonalization *)

Lemma cancel_loop_length m fuel tst1 l1 i c s A w rv1 A' w' rv1' :
  cancel_loop m fuel tst1 l1 i c s A w rv1 = (A', w', rv1') -> length w' = length w.
Proof.
  revert i c s A w rv1. induction fuel as [|fuel IH]; intros i c s A w rv1 E; simpl in E.
  - congruence.
  - destruct (negligible _ _).
    + congruence.
    + apply IH in E. rewrite E. apply vset_length.
Qed.

Lemma negate_column_spec n k V :
  shape V n n -> 0 <= k < n ->
  shape (negate_column n k V) n n /\
  forall r c, 0 <= r < n -> 0 <= c < n ->
    mget (negate_column n k V) r c = if c =? k then (- mget V r k)%float else mget V r c.
Proof.
  intros HV Hk. unfold negate_column, loop_up.
  pose (P := fun j M => shape M n n /\ forall r c, 0 <= r < n -> 0 <= c < n ->
    mget M r c = if (c =? k) && (r <? j) then (- mget V r k)%float else mget V r c).
  assert (HP : P (0 + Z.of_nat (Z.to_nat (n - 0))) (for_up (Z.to_nat (n - 0)) 0
                 (fun j M => mset M j k (- mget M j k)%float) V)).
  { apply for_up_inv.
    - split; auto. intros r c Hr Hc. destruct (Z.ltb_spec r 0); [lia|].
      rewrite andb_false_r. reflexivity.
    - intros j M Hj [HM Hget]. split; [apply shape_mset; auto|].
      intros r c Hr Hc. rewrite (mget_mset M n n) by first [exact HM | lia].
      rewrite (Hget j k) by lia. rewrite Z.eqb_refl.
      destruct (Z.ltb_spec j j); [lia|]. simpl.
      destruct (Z.eqb_spec j r), (Z.eqb_spec k c), (Z.eqb_spec c k),
        (Z.ltb_spec r j), (Z.ltb_spec r (j + 1)); subst; simpl; try lia;
        try reflexivity; rewrite Hget by lia;
        repeat match goal with
               | |- context [?a =? ?b] => destruct (Z.eqb_spec a b)
               | |- context [?a <? ?b] => destruct (Z.ltb_spec a b)
               end; simpl; try lia; reflexivity. }
  destruct HP as [H1 H2]. split; auto. intros r c Hr Hc. rewrite H2 by auto.
  destruct (Z.ltb_spec r (0 + Z.of_nat (Z.to_nat (n - 0)))); [|lia].
  rewrite andb_true_r. reflexivity.
Qed.

Lemma split_search_err fuel tst1 w rv1 l l1 e :
  split_search fuel tst1 w rv1 l l1 = Err e -> e = OutOfBounds.
Proof.
  revert l l1. induction fuel as [|fuel IH]; intros l l1 E; simpl in E; [discriminate|].
  destruct (negligible _ _); [discriminate|].
  destruct (vget_opt w (l - 1)); [|congruence].
  destruct (negligible _ _); [discriminate|]. eapply IH; eauto.
Qed.

(** A pass of the [while (1)] body fails only by reading outside [w]. *)
Lemma sweep_err n m tst1 k st e : sweep n m tst1 k st = Err e -> e = OutOfBounds.
Proof.
  unfold sweep. destruct (split_search _ _ _ _ _ _) as [[[l l1] dc]|e'] eqn:E.
  - destruct (if dc then _ else _) as [[A w] rv1].
    destruct (negb (l =? k)); [discriminate|]. destruct (_ <? _)%float; discriminate.
  - intros H. injection H as <-. eapply split_search_err; eauto.
Qed.

Lemma sweeps_err n m tst1 k cnt st e : sweeps n m tst1 k cnt st = Err e -> e = OutOfBounds.
Proof.
  revert st. induction cnt as [|cnt IH]; intros st E; simpl in E; [discriminate|].
  destruct (sweep n m tst1 k st) as [[st' []]|e'] eqn:Es; try discriminate.
  - eapply IH; eauto.
  - injection E as <-. eapply sweep_err; eauto.
Qed.

(** The [while (1)] loop with [its] passes done is [SVD_NMAX - its] more
    passes: [quit] when none of them breaks. *)
Lemma kloop_sweeps n m tst1 k c : forall fuel its st,
  its = SVD_NMAX - Z.of_nat c -> (c < fuel)%nat ->
  kloop n m fuel its tst1 k st =
  match sweeps n m tst1 k c st with
  | Ok (st', true) => Ok st'
  | Ok (_, false) => Err NonConvergence
  | Err e => Err e
  end.
Proof.
  induction c as [|c IH]; intros fuel its st Hits Hfuel;
    (destruct fuel as [|fuel]; [lia|]); simpl.
  - destruct (Z.gtb_spec (its + 1) SVD_NMAX); [reflexivity|]. unfold SVD_NMAX in *. lia.
  - destruct (Z.gtb_spec (its + 1) SVD_NMAX); [unfold SVD_NMAX in *; lia|].
    destruct (sweep n m tst1 k st) as [[st' []]|e]; auto.
    apply IH; lia.
Qed.

Lemma diag_k_sweeps n m tst1 k st :
  diag_k n m tst1 k st =
  match sweeps n m tst1 k (Z.to_nat SVD_NMAX) st with
  | Ok (st', true) => Ok st'
  | Ok (_, false) => Err NonConvergence
  | Err e => Err e
  end.
Proof. unfold diag_k. apply kloop_sweeps; unfold SVD_NMAX; lia. Qed.

Lemma diag_targets_nonconvergence n m tst1 cnt : forall k st,
  diag_targets n m tst1 cnt k st = Err NonConvergence <->
  exists d st1 st2, (d < cnt)%nat /\ diag_targets n m tst1 d k st = Ok st1 /\
    sweeps n m tst1 (k - Z.of_nat d) (Z.to_nat SVD_NMAX) st1 = Ok (st2, false).
Proof.
  induction cnt as [|cnt IH]; intros k st; cbn [diag_targets].
  - split; [discriminate|]. intros (d & _ & _ & Hd & _). lia.
  - rewrite diag_k_sweeps.
    destruct (sweeps n m tst1 k (Z.to_nat SVD_NMAX) st) as [[st' []]|e] eqn:Es.
    + rewrite IH. split.
      * intros (d & st1 & st2 & Hd & E1 & E2). exists (S d), st1, st2.
        split; [lia|]. split; [cbn [diag_targets]; rewrite diag_k_sweeps, Es; exact E1|].
        replace (k - Z.of_nat (S d)) with (k - 1 - Z.of_nat d) by lia. exact E2.
      * intros ([|d] & st1 & st2 & Hd & E1 & E2); cbn [diag_targets] in E1.
        -- injection E1 as E1. subst st1.
           replace (k - Z.of_nat 0) with k in E2 by lia. congruence.
        -- rewrite diag_k_sweeps, Es in E1. exists d, st1, st2.
           split; [lia|]. split; [exact E1|].
           replace (k - 1 - Z.of_nat d) with (k - Z.of_nat (S d)) by lia. exact E2.
    + split; [intros _|reflexivity]. exists O, st, st'.
      split; [lia|]. split; [reflexivity|]. change (Z.of_nat 0) with 0. rewrite Z.sub_0_r. exact Es.
    + pose proof (sweeps_err _ _ _ _ _ _ _ Es) as He. subst e. split; [discriminate|].
      intros ([|d] & st1 & st2 & Hd & E1 & E2); cbn [diag_targets] in E1.
      * injection E1 as E1. subst st1.
           replace (k - Z.of_nat 0) with k in E2 by lia. congruence.
      * rewrite diag_k_sweeps, Es in E1. discriminate.
Qed.

Lemma diag_targets_converge n m tst1 cnt : forall k st stf,
  diag_targets n m tst1 cnt k st = Ok stf ->
  forall d, (d < cnt)%nat -> exists st1 st2, diag_targets n m tst1 d k st = Ok st1 /\
    sweeps n m tst1 (k - Z.of_nat d) (Z.to_nat SVD_NMAX) st1 = Ok (st2, true).
Proof.
  induction cnt as [|cnt IH]; intros k st stf E d Hd; [lia|]. cbn [diag_targets] in E.
  rewrite diag_k_sweeps in E.
  destruct (sweeps n m tst1 k (Z.to_nat SVD_NMAX) st) as [[st' []]|e] eqn:Es;
    try discriminate.
  destruct d as [|d].
  - exists st, st'. change (Z.of_nat 0) with 0. rewrite Z.sub_0_r. auto.
  - destruct (IH (k - 1) st' stf E d ltac:(lia)) as (st1 & st2 & E1 & E2).
    exists st1, st2. split; [cbn [diag_targets]; rewrite diag_k_sweeps, Es; exact E1|].
    replace (k - Z.of_nat (S d)) with (k - 1 - Z.of_nat d) by lia. exact E2.
Qed.

(** ** What a pass leaves of [w] above the target index *)

Lemma vget_vset_below v i j x : i < j -> 0 < j -> vget (vset v i x) j = vget v j.
Proof.
  intros Hij Hj. unfold vget, vset. rewrite nth_upd.
  destruct (Nat.eqb_spec (Z.to_nat i) (Z.to_nat j)); [lia | reflexivity].
Qed.

(** The cancellation writes [w[i]] for the [fuel] indices from [i]. *)
Lemma cancel_loop_frame m fuel tst1 l1 i c s A w rv1 A' w' rv1' :
  cancel_loop m fuel tst1 l1 i c s A w rv1 = (A', w', rv1') ->
  forall j, i + Z.of_nat fuel <= j -> 0 < j -> vget w' j = vget w j.
Proof.
  revert i c s A w rv1. induction fuel as [|fuel IH]; intros i c s A w rv1 E j Hj Hj0;
    simpl in E.
  - congruence.
  - destruct (negligible _ _).
    + congruence.
    + rewrite (IH _ _ _ _ _ _ E j ltac:(lia) Hj0). apply vget_vset_below; lia.
Qed.

Lemma split_search_le fuel tst1 w rv1 l l1 l' l1' dc :
  split_search fuel tst1 w rv1 l l1 = Ok (l', l1', dc) -> l' <= l.
Proof.
  revert l l1. induction fuel as [|fuel IH]; intros l l1 E; simpl in E.
  - injection E as <- _ _. lia.
  - destruct (negligible _ _); [injection E as <- _ _; lia|].
    destruct (vget_opt w (l - 1)); [|discriminate].
    destruct (negligible _ _); [injection E as <- _ _; lia|].
    apply IH in E. lia.
Qed.

(** A pass of the QR loop writes [w[i1]] only. *)
Lemma qr_step_w n m i1 A V w rv1 c s f x :
  match qr_step n m i1 (A, V, w, rv1, c, s, f, x) with
  | (_, _, w', _, _, _, _, _) =>
      length w' = length w /\ forall j, i1 < j -> 0 < j -> vget w' j = vget w j
  end.
Proof.
  unfold qr_step. cbv beta iota zeta.
  match goal with |- context [if negb ?b then _ else _] => destruct (negb b) end;
    (split; [apply vset_length | intros j Hj Hj0; apply vget_vset_below; lia]).
Qed.

Lemma qr_sweep_w n m l k A V w rv1 :
  l <= k ->
  length (dw (qr_sweep n m l k A V w rv1)) = length w /\
  forall j, k < j -> 0 < j -> vget (dw (qr_sweep n m l k A V w rv1)) j = vget w j.
Proof.
  intros Hlk.
  set (P := fun (i : Z) (st : matrix * matrix * list float * list float * float * float * float * float) =>
    match st with
    | (_, _, w', _, _, _, _, _) =>
        length w' = length w /\ forall j, i <= j -> 0 < j -> vget w' j = vget w j
    end).
  assert (Hloop : forall s0, P l s0 ->
    P (l + Z.of_nat (Z.to_nat (k - l))) (for_up (Z.to_nat (k - l)) l (qr_step n m) s0)).
  { intros s0 H0. apply for_up_inv; [exact H0|].
    intros i1 [[[[[[[A1 V1] w1] r1] c1] s1] f1] x1] Hi HP.
    pose proof (qr_step_w n m i1 A1 V1 w1 r1 c1 s1 f1 x1) as Hs.
    destruct (qr_step n m i1 _) as [[[[[[[A2 V2] w2] r2] c2] s2] f2] x2].
    destruct HP as [HPl HPv], Hs as [Hsl Hsv]. split; [congruence|].
    intros j Hj Hj0. rewrite Hsv by lia. apply HPv; lia. }
  unfold qr_sweep, loop_up. cbv zeta.
  match goal with
  | |- context [for_up ?c ?i (qr_step n m) ?s0] =>
      specialize (Hloop s0); destruct (for_up c i (qr_step n m) s0)
        as [[[[[[[A2 V2] w2] r2] c2] s2] f2] x2]
  end.
  unfold P in Hloop. cbv beta iota in Hloop.
  destruct (Hloop (conj eq_refl (fun _ _ _ => eq_refl))) as [Hl Hv]. cbn [dw].
  split; [rewrite vset_length; exact Hl|].
  intros j Hj Hj0. rewrite vget_vset_below by lia. apply Hv; lia.
Qed.

(** A pass at target [k] keeps the length of [w] and its entries above [k];
    a pass that breaks leaves [w[k]] not negative. *)
Lemma sweep_w n m tst1 k st st' b :
  0 <= k < Z.of_nat (length (dw st)) -> sweep n m tst1 k st = Ok (st', b) ->
  length (dw st') = length (dw st) /\
  (forall j, k < j -> vget (dw st') j = vget (dw st) j) /\
  (b = true -> (vget (dw st') k <? 0)%float = false).
Proof.
  intros Hk. unfold sweep.
  destruct (split_search _ _ _ _ _ _) as [[[l l1] dc]|e] eqn:Es; [|discriminate].
  apply split_search_le in Es.
  destruct (if dc then _ else _) as [[A w] rv1] eqn:Ec.
  assert (Hw : length w = length (dw st) /\ forall j, k < j -> vget w j = vget (dw st) j).
  { destruct dc.
    - split; [eapply cancel_loop_length; eauto|].
      intros j Hj. eapply cancel_loop_frame; [exact Ec| lia | lia].
    - injection Ec as _ <- _. auto. }
  destruct Hw as [Hl Hv].
  destruct (negb (l =? k)).
  - intros E. injection E as <- <-.
    destruct (qr_sweep_w n m l k A (dV st) w rv1 Es) as [Hl' Hv'].
    split; [congruence|]. split; [|discriminate].
    intros j Hj. rewrite Hv' by lia. auto.
  - destruct (vget w k <? 0)%float eqn:Hz; intros E; injection E as <- <-; cbn [dw].
    + split; [rewrite vset_length; exact Hl|]. split.
      * intros j Hj. rewrite vget_vset_below by lia. auto.
      * intros _. rewrite vget_vset_same by lia. apply opp_of_negative; exact Hz.
    + auto.
Qed.

Lemma kloop_w n m fuel : forall its tst1 k st st',
  0 <= k < Z.of_nat (length (dw st)) -> kloop n m fuel its tst1 k st = Ok st' ->
  length (dw st') = length (dw st) /\
  (forall j, k < j -> vget (dw st') j = vget (dw st) j) /\
  (vget (dw st') k <? 0)%float = false.
Proof.
  induction fuel as [|fuel IH]; intros its tst1 k st st' Hk E; simpl in E; [discriminate|].
  destruct (its + 1 >? SVD_NMAX); [discriminate|].
  destruct (sweep n m tst1 k st) as [[st1 []]|e] eqn:Es; [| |discriminate].
  - injection E as <-. destruct (sweep_w _ _ _ _ _ _ _ Hk Es) as (Hl & Hv & Hs). auto.
  - destruct (sweep_w _ _ _ _ _ _ _ Hk Es) as (Hl & Hv & _).
    destruct (IH _ tst1 k st1 st' ltac:(lia) E) as (Hl' & Hv' & Hs').
    split; [congruence|]. split; [|exact Hs'].
    intros j Hj. rewrite Hv' by lia. auto.
Qed.

(** After the targets [k], [k-1], ..., [k-cnt+1], no entry of [w] above
    [k - cnt] is negative. *)
Lemma diag_targets_w n m tst1 cnt : forall k st st',
  Z.of_nat cnt <= k + 1 -> k < Z.of_nat (length (dw st)) ->
  (forall j, k < j < Z.of_nat (length (dw st)) -> (vget (dw st) j <? 0)%float = false) ->
  diag_targets n m tst1 cnt k st = Ok st' ->
  length (dw st') = length (dw st) /\
  forall j, k - Z.of_nat cnt < j < Z.of_nat (length (dw st)) ->
    (vget (dw st') j <? 0)%float = false.
Proof.
  induction cnt as [|cnt IH]; intros k st st' Hc Hk Hpos E; cbn [diag_targets] in E.
  - injection E as <-. split; [reflexivity|]. intros j Hj. apply Hpos. lia.
  - unfold diag_k in E.
    destruct (kloop n m _ 0 tst1 k st) as [st1|e] eqn:E1; [|discriminate].
    destruct (kloop_w _ _ _ _ _ k st st1 ltac:(lia) E1) as (Hl1 & Hv1 & Hs1).
    destruct (IH (k - 1) st1 st' ltac:(lia) ltac:(lia)) as [Hl Hs]; [|exact E|].
    + intros j Hj. destruct (Z.eq_dec j k) as [->|Hne]; [exact Hs1|].
      rewrite Hv1 by lia. apply Hpos. lia.
    + split; [congruence|]. intros j Hj. apply Hs. lia.
Qed.

Lemma householder_w_length n m A :
  0 <= n -> length (hw (householder n m A)) = Z.to_nat n.
Proof.
  intros Hn. unfold householder, loop_up.
  apply (for_up_inv (fun _ st => length (hw st) = Z.to_nat n)).
  - simpl. unfold zeros. apply repeat_length.
  - intros i st _ H. unfold hh_step. cbv zeta.
    repeat match goal with |- context [match ?e with pair _ _ => _ end] => destruct e end.
    simpl. rewrite vset_length. exact H.
Qed.

(** ** Claims on the diagonalization of [svd] *)

(** C10 fails: for the 2 by 1 matrix [[1e308], [1e308]] the column scale
    of the Householder step overflows to infinity, [0 * inf] makes [w[0]]
    and then [tst1] NaN, and although [rv1[0]] is [0.0] the test
    [fabs(rv1[0]) + tst1 == tst1] is false.  The splitting search for
    [k = 0] then goes on to read [w[l - 1] = w[-1]], outside [w]. *)
Theorem svd_overflow_reads_w_minus_one :
  vget (drv1 (snd (svd_prepare 1 2 ([[1e308]; [1e308]])%float))) 0 = 0%float /\
  is_nan (fst (svd_prepare 1 2 ([[1e308]; [1e308]])%float)) = true /\
  split_search 1 (fst (svd_prepare 1 2 ([[1e308]; [1e308]])%float))
    (dw (snd (svd_prepare 1 2 ([[1e308]; [1e308]])%float)))
    (drv1 (snd (svd_prepare 1 2 ([[1e308]; [1e308]])%float))) 0 (-1) = Err OutOfBounds /\
  svd 1 2 ([[1e308]; [1e308]])%float = Err OutOfBounds.
Proof. vm_compute. repeat split. Qed.

(** C7 on the code: when the splitting search stops at [l == k], the pass
    breaks (the next target index comes next, [kloop] returns), and the
    value [z = w[k]] left by the cancellation is made non-negative: if
    [z < 0], [w[k]] becomes [-z] and column [k] of [V] is negated, the rest
    of [w] and [V] kept; otherwise [w] and [V] are left as they are. *)
Theorem sweep_collapse_fixes_sign n m tst1 k st l1 dc fu its :
  0 <= k < n -> shape (dV st) n n -> Z.of_nat (length (dw st)) = n ->
  split_search (Z.to_nat (k + 1)) tst1 (dw st) (drv1 st) k (-1) = Ok (k, l1, dc) ->
  its + 1 <= SVD_NMAX ->
  let '(A1, w1, rv11) :=
    if dc then cancel_loop m (Z.to_nat (k - k + 1)) tst1 l1 k 0%float 1%float
                 (dA st) (dw st) (drv1 st)
    else (dA st, dw st, drv1 st) in
  exists st', sweep n m tst1 k st = Ok (st', true) /\ kloop n m (S fu) its tst1 k st = Ok st' /\
  dA st' = A1 /\ drv1 st' = rv11 /\
  if (vget w1 k <? 0)%float then
    vget (dw st') k = (- vget w1 k)%float /\
    (forall i, 0 <= i < n -> i <> k -> vget (dw st') i = vget w1 i) /\
    (forall r c, 0 <= r < n -> 0 <= c < n ->
       mget (dV st') r c = if c =? k then (- mget (dV st) r k)%float else mget (dV st) r c)
  else dw st' = w1 /\ dV st' = dV st.
Proof.
  intros Hk HV Hw Hsplit Hits.
  assert (Hsweep : forall A1 w1 rv11,
    (if dc then cancel_loop m (Z.to_nat (k - k + 1)) tst1 l1 k 0%float 1%float
                 (dA st) (dw st) (drv1 st)
     else (dA st, dw st, drv1 st)) = (A1, w1, rv11) ->
    sweep n m tst1 k st =
      Ok (if (vget w1 k <? 0)%float
          then DS A1 (negate_column n k (dV st)) (vset w1 k (- vget w1 k)%float) rv11
          else DS A1 (dV st) w1 rv11, true)).
  { intros A1 w1 rv11 E. unfold sweep. rewrite Hsplit, E, Z.eqb_refl. simpl.
    destruct (vget w1 k <? 0)%float; reflexivity. }
  destruct (if dc then _ else _) as [[A1 w1] rv11] eqn:E.
  assert (Hw1 : Z.of_nat (length w1) = n).
  { destruct dc.
    - apply cancel_loop_length in E. lia.
    - injection E as _ <- _. exact Hw. }
  specialize (Hsweep A1 w1 rv11 eq_refl).
  eexists. split; [exact Hsweep|]. split.
  { simpl. destruct (Z.gtb_spec (its + 1) SVD_NMAX); [lia|]. rewrite Hsweep. reflexivity. }
  destruct (vget w1 k <? 0)%float eqn:Hz; simpl; (split; [reflexivity|]);
    (split; [reflexivity|]).
  - split; [apply vget_vset_same; lia|]. split.
    + intros i Hi Hik. apply vget_vset_other; lia.
    + intros r c Hr Hc. apply (proj2 (negate_column_spec n k (dV st) HV Hk)); lia.
  - split; reflexivity.
Qed.

Lemma sweep_collapse_fixes_sign_witness :
  let '(A1, w1, rv11) :=
    if false then cancel_loop 1 (Z.to_nat (0 - 0 + 1)) 2%float (-1) 0 0%float 1%float
                    ([[1]])%float ([-2])%float ([0])%float
    else (([[1]])%float, ([-2])%float, ([0])%float) in
  exists st', sweep 1 1 2%float 0 (DS ([[1]])%float ([[1]])%float ([-2])%float ([0])%float)
                = Ok (st', true) /\
  kloop 1 1 1 0 2%float 0 (DS ([[1]])%float ([[1]])%float ([-2])%float ([0])%float) = Ok st' /\
  dA st' = A1 /\ drv1 st' = rv11 /\
  if (vget w1 0 <? 0)%float then
    vget (dw st') 0 = (- vget w1 0)%float /\
    (forall i, 0 <= i < 1 -> i <> 0 -> vget (dw st') i = vget w1 i) /\
    (forall r c, 0 <= r < 1 -> 0 <= c < 1 ->
       mget (dV st') r c = if c =? 0 then (- mget ([[1]])%float r 0)%float
                           else mget ([[1]])%float r c)
  else dw st' = w1 /\ dV st' = ([[1]])%float.
Proof.
  apply (sweep_collapse_fixes_sign 1 1 2%float 0
           (DS ([[1]])%float ([[1]])%float ([-2])%float ([0])%float) (-1) false 0 0);
    [lia | solve_shape | reflexivity | vm_compute; reflexivity | vm_compute; discriminate].
Defined.

(** C5: [svd] fails with [NonConvergence] exactly when the diagonalization
    reaches a target index [k] (all targets above it converged) at which
    [SVD_NMAX] = 40 passes of the loop body all end without the block
    collapsing ([l == k]) and without an error; and when [svd] returns
    normally, every target index [k] converged within 40 passes. *)
Theorem svd_nonconvergence_iff n m A :
  (svd n m A = Err NonConvergence <->
   0 < m /\ 0 < n /\
   exists k st st', 0 <= k < n /\ reaches n m A k st /\
     sweeps n m (fst (svd_prepare n m A)) k (Z.to_nat SVD_NMAX) st = Ok (st', false)) /\
  (forall r, svd n m A = Ok r ->
   forall k, 0 <= k < n -> exists st st', reaches n m A k st /\
     sweeps n m (fst (svd_prepare n m A)) k (Z.to_nat SVD_NMAX) st = Ok (st', true)).
Proof.
  unfold svd, reaches. destruct (svd_prepare n m A) as [tst1 st0]. cbn [fst].
  destruct ((0 <? m) && (0 <? n)) eqn:Hmn; cbn [negb].
  - apply andb_true_iff in Hmn. destruct Hmn as [Hm Hn].
    apply Z.ltb_lt in Hm, Hn.
    destruct (diag_targets n m tst1 (Z.to_nat n) (n - 1) st0) as [stf|e] eqn:Ed.
    + split.
      * split; [discriminate|]. intros (_ & _ & k & st & st' & Hk & E1 & E2).
        assert (Hc : diag_targets n m tst1 (Z.to_nat n) (n - 1) st0 = Err NonConvergence).
        { apply diag_targets_nonconvergence. exists (Z.to_nat (n - 1 - k)), st, st'.
          split; [lia|]. split; [exact E1|].
          replace (n - 1 - Z.of_nat (Z.to_nat (n - 1 - k))) with k by lia. exact E2. }
        congruence.
      * intros r _ k Hk.
        destruct (diag_targets_converge n m tst1 _ _ _ _ Ed (Z.to_nat (n - 1 - k)) ltac:(lia))
          as (st1 & st2 & E1 & E2).
        exists st1, st2. split; [exact E1|].
        replace (n - 1 - Z.of_nat (Z.to_nat (n - 1 - k))) with k in E2 by lia. exact E2.
    + split; [|intros r Hr; discriminate].
      split.
      * intros He. injection He as He. rewrite He in Ed.
        apply diag_targets_nonconvergence in Ed.
        destruct Ed as (d & st1 & st2 & Hd & E1 & E2).
        split; [lia|]. split; [lia|].
        exists (n - 1 - Z.of_nat d), st1, st2. split; [lia|].
        replace (Z.to_nat (n - 1 - (n - 1 - Z.of_nat d))) with d by lia.
        split; [exact E1|].
        exact E2.
      * intros (_ & _ & k & st & st' & Hk & E1 & E2).
        assert (Hc : diag_targets n m tst1 (Z.to_nat n) (n - 1) st0 = Err NonConvergence).
        { apply diag_targets_nonconvergence. exists (Z.to_nat (n - 1 - k)), st, st'.
          split; [lia|]. split; [exact E1|].
          replace (n - 1 - Z.of_nat (Z.to_nat (n - 1 - k))) with k by lia. exact E2. }
        congruence.
  - split; [|intros r Hr; discriminate].
    split; [discriminate|]. intros (Hm & Hn & _).
    apply andb_false_iff in Hmn. destruct Hmn as [H|H]; apply Z.ltb_ge in H; lia.
Qed.

Lemma svd_nonconvergence_iff_witness :
  svd 4 1 ([[1; 8e307; 8e307; 8e307]])%float = Err NonConvergence /\
  exists k st st', 0 <= k < 4 /\ reaches 4 1 ([[1; 8e307; 8e307; 8e307]])%float k st /\
    sweeps 4 1 (fst (svd_prepare 4 1 ([[1; 8e307; 8e307; 8e307]])%float)) k
      (Z.to_nat SVD_NMAX) st = Ok (st', false).
Proof.
  assert (H : svd 4 1 ([[1; 8e307; 8e307; 8e307]])%float = Err NonConvergence)
    by (vm_compute; reflexivity).
  split; [exact H|].
  destruct (proj1 (proj1 (svd_nonconvergence_iff 4 1 _)) H) as (_ & _ & Hex).
  exact Hex.
Defined.

(** C9, a defect of the code: for this finite 3-column, 1-row input the
    column scale [|1e308| + |1e308|] of the Householder reduction overflows,
    and [svd] returns normally with [w[1]] a NaN.  This breaks the code's
    own comment "w[k] is made non-negative" ([0 <= w[1]] is false) and its
    docstring "A = U.W.V'": every entry of [U.W.V'] is a NaN, while [A] is
    finite. *)
Lemma svd_returns_nan_singular_value :
  match svd 3 1 ([[0; 1e308; 1e308]])%float with
  | Ok (U, w, V) =>
      Z.of_nat (length w) = 3 /\ is_nan (vget w 1) = true /\
      PrimFloat.leb 0 (vget w 1) = false /\
      forall j, 0 <= j < 3 -> is_nan (usv_entry 3 U w V 0 j) = true /\
        is_finite (mget ([[0; 1e308; 1e308]])%float 0 j) = true
  | Err _ => False
  end.
Proof.
  remember (svd 3 1 ([[0; 1e308; 1e308]])%float) as r eqn:E.
  vm_compute in E. subst r.
  split; [reflexivity|]. split; [reflexivity|]. split; [reflexivity|].
  intros j Hj.
  assert (j = 0 \/ j = 1 \/ j = 2) as [-> | [-> | -> ]] by lia; vm_compute; split; reflexivity.
Qed.

(** ** Where the diagonalization reads [w[-1]] *)

Lemma for_up_preserve {St : Type} (P : St -> Prop) (body : Z -> St -> St) cnt i s :
  P s -> (forall k s, i <= k < i + Z.of_nat cnt -> P s -> P (body k s)) ->
  P (for_up cnt i body s).
Proof.
  intros H0 Hs. apply (for_up_inv (fun _ s => P s)); auto.
Qed.

(** [fabs(x) + tst1 == tst1] never holds when [tst1] is a NaN. *)
Lemma negligible_nan tst1 x : is_nan tst1 = true -> negligible tst1 x = false.
Proof.
  intros H. unfold negligible. rewrite eqb_spec, add_spec, abs_spec, (is_nan_Prim2SF _ H).
  destruct (Prim2SF x) as [[]|[]| |[] mx ex]; reflexivity.
Qed.

(** ... and always holds for [x = 0.] otherwise. *)
Lemma negligible_zero tst1 : is_nan tst1 = false -> negligible tst1 0%float = true.
Proof.
  intros H. apply not_nan_Prim2SF in H. unfold negligible.
  rewrite eqb_spec, add_spec, abs_spec.
  change (Prim2SF 0%float) with (S754_zero false).
  destruct (Prim2SF tst1) as [[]|[]| |[] mx ex]; try reflexivity; try congruence;
    unfold SFeqb, SFcompare, SF64add, SFadd, SFabs;
    rewrite Z.compare_refl, Pos.compare_cont_refl; reflexivity.
Qed.

Lemma vget_vset_zero v i : 0 <= i -> vget (vset v i 0%float) i = 0%float.
Proof.
  intros Hi. rewrite vget_vset by lia. rewrite Z.eqb_refl. simpl.
  destruct (i <? Z.of_nat (length v)) eqn:E; [reflexivity|].
  apply Z.ltb_ge in E. unfold vget. apply nth_overflow. lia.
Qed.

(** The row part of the Householder step writes [rv1] at indices above [i]. *)
Lemma hh_row_rv1 n m A rv1 i j : 0 <= j <= i ->
  match hh_row n m A rv1 i with (_, rv1', _, _) => vget rv1' j = vget rv1 j end.
Proof.
  intros Hj. unfold hh_row. cbv zeta.
  destruct (_ && _); [|reflexivity]. destruct (negb _); [|reflexivity].
  destruct (loop_up (i + 1) n _ (A, 0%float)) as [A1 s1].
  unfold loop_up at 1.
  apply (for_up_preserve (fun r => vget r j = vget rv1 j)); [reflexivity|].
  intros k r Hk Hr. rewrite vget_vset_other by lia. exact Hr.
Qed.

(** EISPACK's invariant: the Householder reduction leaves [rv1[0] = 0]. *)
Lemma householder_rv1_0 n m A : 0 < n -> vget (hrv1 (householder n m A)) 0 = 0%float.
Proof.
  intros Hn. unfold householder, loop_up.
  set (P := fun i st => (i <= 0 -> hscale st = 0%float /\ hg st = 0%float) /\
                        (0 < i -> vget (hrv1 st) 0 = 0%float)).
  assert (HP : P (0 + Z.of_nat (Z.to_nat (n - 0)))
                 (for_up (Z.to_nat (n - 0)) 0 (hh_step n m)
                    (HS A (zeros n) (zeros n) 0%float 0%float 0%float))).
  2: { destruct HP as [_ HP]. apply HP. lia. }
  apply for_up_inv; [split; [intros _; split; reflexivity | lia]|].
  intros k st Hk [H0 H1]. unfold hh_step. cbv zeta.
  destruct (hh_col n m (hA st) k) as [[A1 g1] sc1].
  pose proof (hh_row_rv1 n m A1 (vset (hrv1 st) k (hscale st * hg st)%float) k 0
                ltac:(lia)) as Hr.
  destruct (hh_row n m A1 _ k) as [[[A2 r2] g2] sc2]. unfold P. cbn [hrv1 hscale hg].
  split; [lia|]. intros _. rewrite Hr.
  destruct (Z.eq_dec k 0) as [->|Hk0].
  - destruct (H0 ltac:(lia)) as [-> ->].
    change (0 * 0)%float with 0%float. apply vget_vset_zero. lia.
  - rewrite vget_vset_other by lia. apply H1. lia.
Qed.

Lemma split_search_nan fuel tst1 w rv1 : forall l l1,
  is_nan tst1 = true -> Z.of_nat fuel = l + 1 -> 0 <= l <= Z.of_nat (length w) ->
  split_search fuel tst1 w rv1 l l1 = Err OutOfBounds.
Proof.
  induction fuel as [|fuel IH]; intros l l1 Hn Hf Hl; [lia|]. simpl.
  rewrite (negligible_nan _ _ Hn). unfold vget_opt.
  destruct (Z.eq_dec l 0) as [->|Hl0]; [reflexivity|].
  replace ((0 <=? l - 1) && (l - 1 <? Z.of_nat (length w))) with true
    by (symmetry; apply andb_true_iff; split; [apply Z.leb_le | apply Z.ltb_lt]; lia).
  rewrite (negligible_nan _ _ Hn). apply IH; auto; lia.
Qed.

(** Unless [tst1] is a NaN, the split search (lines 342-357) started at [k]
    with [rv1[0] = 0] stops at some [0 <= l <= k] without reading outside
    [w], and it asks for a cancellation only at an [l >= 1]. *)
Lemma split_search_in_bounds fuel tst1 w rv1 : forall l l1,
  is_nan tst1 = false -> vget rv1 0 = 0%float ->
  Z.of_nat fuel = l + 1 -> 0 <= l <= Z.of_nat (length w) ->
  exists l' l1' dc, split_search fuel tst1 w rv1 l l1 = Ok (l', l1', dc) /\
    0 <= l' <= l /\ (dc = true -> 1 <= l').
Proof.
  induction fuel as [|fuel IH]; intros l l1 Hn H0 Hf Hl; [lia|]. simpl.
  destruct (negligible tst1 (vget rv1 l)) eqn:N.
  - exists l, l1, false. split; [reflexivity|]. split; [lia | discriminate].
  - destruct (Z.eq_dec l 0) as [->|Hl0].
    { rewrite H0, (negligible_zero _ Hn) in N. discriminate. }
    unfold vget_opt.
    replace ((0 <=? l - 1) && (l - 1 <? Z.of_nat (length w))) with true
      by (symmetry; apply andb_true_iff; split; [apply Z.leb_le | apply Z.ltb_lt]; lia).
    destruct (negligible tst1 (nth (Z.to_nat (l - 1)) w 0%float)).
    + exists l, (l - 1), true. split; [reflexivity|]. lia.
    + destruct (IH (l - 1) (l - 1) Hn H0 ltac:(lia) ltac:(lia))
        as (l' & l1' & dc & E & Hl' & Hdc).
      exists l', l1', dc. split; [exact E|]. split; [lia | exact Hdc].
Qed.

Lemma cancel_loop_rv1 m fuel tst1 l1 i c s A w rv1 A' w' rv1' :
  cancel_loop m fuel tst1 l1 i c s A w rv1 = (A', w', rv1') ->
  forall j, 0 <= j < i -> vget rv1' j = vget rv1 j.
Proof.
  revert i c s A w rv1. induction fuel as [|fuel IH]; intros i c s A w rv1 E j Hj;
    simpl in E.
  - congruence.
  - destruct (negligible _ _).
    + injection E as _ _ <-. apply vget_vset_other; lia.
    + rewrite (IH _ _ _ _ _ _ E j ltac:(lia)). apply vget_vset_other; lia.
Qed.

Lemma qr_step_rv1 n m i1 A V w rv1 c s f x : 1 <= i1 ->
  match qr_step n m i1 (A, V, w, rv1, c, s, f, x) with
  | (_, _, _, rv1', _, _, _, _) => vget rv1' 0 = vget rv1 0
  end.
Proof.
  intros Hi. unfold qr_step. cbv beta iota zeta.
  match goal with |- context [if negb ?b then _ else _] => destruct (negb b) end;
    apply vget_vset_other; lia.
Qed.

(** The QR sweep on the block [l..k] keeps [rv1[0] = 0]. *)
Lemma qr_sweep_rv1_0 n m l k A V w rv1 :
  0 <= l < k -> vget rv1 0 = 0%float -> vget (drv1 (qr_sweep n m l k A V w rv1)) 0 = 0%float.
Proof.
  intros Hlk H0. unfold qr_sweep, loop_up. cbv zeta.
  match goal with
  | |- context [for_up ?c ?i (qr_step n m) ?s0] =>
      assert (Hloop : 1 <= l -> match for_up c i (qr_step n m) s0 with
                      | (_, _, _, r, _, _, _, _) => vget r 0 = vget rv1 0 end);
      [intros Hl1; apply (for_up_preserve (fun st =>
          match st with (_, _, _, r, _, _, _, _) => vget r 0 = vget rv1 0 end));
       [reflexivity|];
       intros i1 [[[[[[[A1 V1] w1] r1] c1] s1] f1] x1] Hi HP;
       pose proof (qr_step_rv1 n m i1 A1 V1 w1 r1 c1 s1 f1 x1 ltac:(lia)) as Hs;
       destruct (qr_step n m i1 _) as [[[[[[[A2 V2] w2] r2] c2] s2] f2] x2];
       congruence
      |];
      destruct (for_up c i (qr_step n m) s0) as [[[[[[[A2 V2] w2] r2] c2] s2] f2] x2]
  end.
  cbn [drv1]. rewrite vget_vset_other by lia.
  destruct (Z.eq_dec l 0) as [->|Hl0].
  - apply vget_vset_zero. lia.
  - rewrite vget_vset_other by lia. rewrite Hloop by lia. exact H0.
Qed.

(** A pass of the loop body never fails when [tst1] is not a NaN and
    [rv1[0] = 0], and it keeps [rv1[0] = 0]. *)
Lemma sweep_in_bounds n m tst1 k st :
  is_nan tst1 = false -> vget (drv1 st) 0 = 0%float -> 0 <= k < Z.of_nat (length (dw st)) ->
  exists st' b, sweep n m tst1 k st = Ok (st', b) /\ vget (drv1 st') 0 = 0%float.
Proof.
  intros Hn H0 Hk. unfold sweep.
  destruct (split_search_in_bounds (Z.to_nat (k + 1)) tst1 (dw st) (drv1 st) k (-1)
              Hn H0 ltac:(lia) ltac:(lia)) as (l & l1 & dc & E & Hl & Hdc).
  rewrite E.
  destruct (if dc then _ else _) as [[A w] rv1] eqn:Ec.
  assert (Hr : vget rv1 0 = 0%float).
  { destruct dc.
    - rewrite (cancel_loop_rv1 _ _ _ _ _ _ _ _ _ _ _ _ _ Ec 0 ltac:(specialize (Hdc eq_refl); lia)).
      exact H0.
    - injection Ec as _ _ <-. exact H0. }
  destruct (negb (l =? k)) eqn:Hlk.
  - exists (qr_sweep n m l k A (dV st) w rv1), false. split; [reflexivity|].
    apply negb_true_iff, Z.eqb_neq in Hlk. apply qr_sweep_rv1_0; [lia | exact Hr].
  - destruct (vget w k <? 0)%float; eexists; eexists; (split; [reflexivity | exact Hr]).
Qed.

Lemma kloop_in_bounds n m tst1 k fuel : forall its st,
  is_nan tst1 = false -> vget (drv1 st) 0 = 0%float -> 0 <= k < Z.of_nat (length (dw st)) ->
  kloop n m fuel its tst1 k st <> Err OutOfBounds /\
  forall st', kloop n m fuel its tst1 k st = Ok st' ->
    vget (drv1 st') 0 = 0%float /\ length (dw st') = length (dw st).
Proof.
  induction fuel as [|fuel IH]; intros its st Hn H0 Hk; simpl.
  - split; [discriminate | intros st' E; discriminate].
  - destruct (its + 1 >? SVD_NMAX); [split; [discriminate | intros st' E; discriminate]|].
    destruct (sweep_in_bounds n m tst1 k st Hn H0 Hk) as (st1 & b & Es & H1).
    destruct (sweep_w _ _ _ _ _ _ _ Hk Es) as (Hl1 & _ & _).
    rewrite Es. destruct b.
    + split; [discriminate|]. intros st' E. injection E as <-. auto.
    + destruct (IH (its + 1) st1 Hn H1 ltac:(lia)) as [Hne Hok].
      split; [exact Hne|]. intros st' E. destruct (Hok st' E) as [Ha Hb].
      split; [exact Ha | congruence].
Qed.

Lemma diag_targets_in_bounds n m tst1 cnt : forall k st,
  is_nan tst1 = false -> vget (drv1 st) 0 = 0%float ->
  Z.of_nat cnt <= k + 1 -> k < Z.of_nat (length (dw st)) ->
  diag_targets n m tst1 cnt k st <> Err OutOfBounds.
Proof.
  induction cnt as [|cnt IH]; intros k st Hn H0 Hc Hk; cbn [diag_targets]; [discriminate|].
  unfold diag_k.
  destruct (kloop_in_bounds n m tst1 k (Z.to_nat SVD_NMAX + 1) 0 st Hn H0 ltac:(lia))
    as [Hne Hok].
  destruct (kloop n m (Z.to_nat SVD_NMAX + 1) 0 tst1 k st) as [st1|e] eqn:E.
  - destruct (Hok st1 eq_refl) as [H1 Hl1]. apply IH; auto; lia.
  - exact Hne.
Qed.

Lemma sweeps_S n m tst1 k c st :
  sweeps n m tst1 k (S c) st =
  match sweep n m tst1 k st with
  | Err e => Err e
  | Ok (st', true) => Ok (st', true)
  | Ok (st', false) => sweeps n m tst1 k c st'
  end.
Proof. reflexivity. Qed.

Lemma diag_targets_nan n m tst1 cnt k st :
  is_nan tst1 = true -> (0 < cnt)%nat -> 0 <= k < Z.of_nat (length (dw st)) ->
  diag_targets n m tst1 cnt k st = Err OutOfBounds.
Proof.
  intros Hn Hc Hk. destruct cnt as [|cnt]; [lia|]. cbn [diag_targets].
  rewrite diag_k_sweeps. change (Z.to_nat SVD_NMAX) with (S 39). rewrite sweeps_S.
  unfold sweep. rewrite split_search_nan by (auto; lia). reflexivity.
Qed.

(** The state [svd_prepare] hands to the diagonalization. *)
Lemma svd_prepare_state n m A :
  0 < n ->
  fst (svd_prepare n m A) = htst1 (householder n m A) /\
  Z.of_nat (length (dw (snd (svd_prepare n m A)))) = n /\
  vget (drv1 (snd (svd_prepare n m A))) 0 = 0%float.
Proof.
  intros Hn. unfold svd_prepare. cbv zeta.
  destruct (acc_right _ _ _ _ _ _) as [[V0 g0] l0]. cbn [fst snd dw drv1].
  rewrite householder_w_length by lia. split; [reflexivity|]. split; [lia|].
  apply householder_rv1_0. exact Hn.
Qed.

(** X: [svd] fails with [OutOfBounds] (the read of [w[-1]] in the split
    search) exactly when [m, n > 0] and the [tst1] of the Householder
    reduction is a NaN.  Otherwise [rv1[0] = 0] stops every split search at
    [l = 0] at the latest. *)
Theorem svd_out_of_bounds_iff_nan n m A :
  svd n m A = Err OutOfBounds <->
  0 < m /\ 0 < n /\ is_nan (htst1 (householder n m A)) = true.
Proof.
  unfold svd. destruct (negb ((0 <? m) && (0 <? n))) eqn:Hmn.
  - split; [discriminate|]. intros (Hm & Hn & _).
    apply Z.ltb_lt in Hm, Hn. rewrite Hm, Hn in Hmn. discriminate.
  - apply negb_false_iff, andb_true_iff in Hmn. destruct Hmn as [Hm Hn].
    apply Z.ltb_lt in Hm, Hn.
    destruct (svd_prepare_state n m A Hn) as (Ht & Hl & H0).
    destruct (svd_prepare n m A) as [tst1 st0]. cbn [fst snd] in Ht, Hl, H0. subst tst1.
    destruct (is_nan (htst1 (householder n m A))) eqn:Hnan.
    + rewrite diag_targets_nan by (auto; lia). split; auto.
    + split; [|intros (_ & _ & H); discriminate].
      destruct (diag_targets n m _ (Z.to_nat n) (n - 1) st0) as [st'|e] eqn:Ed;
        [discriminate|].
      intros E. injection E as ->.
      exfalso. refine (diag_targets_in_bounds _ _ _ _ _ _ Hnan H0 _ _ Ed); lia.
Qed.

(** ** The dimensions [svd] keeps *)

(** Every matrix write [mset] keeps the dimensions, so every loop of such
    writes does. *)
Ltac shape_tac :=
  repeat (cbn [fst snd] in *; unfold loop_up in *;
    first
    [ match goal with H : shape ?M ?r ?c |- shape ?M ?r ?c => exact H end
    | match goal with |- shape (mset _ _ _ _) _ _ => apply shape_mset end
    | match goal with
      | |- shape (for_up ?cnt ?i ?b ?s0) ?r ?c =>
          apply (for_up_preserve (fun M => shape M r c) b cnt i s0);
          [ | let k := fresh "k" in let M := fresh "M" in let Hk := fresh "Hk" in
              let HM := fresh "HM" in intros k M Hk HM; cbv beta iota zeta ]
      end
    | match goal with
      | |- shape ?X ?r ?c =>
          match X with
          | context [match for_up ?cnt ?i ?b ?s0 with pair _ _ => _ end] =>
              let HS := fresh "HS" in
              assert (HS : shape (fst (for_up cnt i b s0)) r c);
              [ apply (for_up_preserve (fun st => shape (fst st) r c) b cnt i s0);
                [ | let k := fresh "k" in let M := fresh "M" in let s := fresh "s" in
                    let Hk := fresh "Hk" in let HM := fresh "HM" in
                    intros k [M s] Hk HM; cbv beta iota zeta ]
              | destruct (for_up cnt i b s0) ]
          end
      end
    | match goal with |- context [if ?b then _ else _] => destruct b end ]).

Lemma hh_col_shape n m A i : shape A m n -> shape (fst (fst (hh_col n m A i))) m n.
Proof. intros H. unfold hh_col. cbv zeta. shape_tac. Qed.

Lemma hh_row_shape n m A rv1 i :
  shape A m n -> shape (fst (fst (fst (hh_row n m A rv1 i)))) m n.
Proof. intros H. unfold hh_row. cbv zeta. shape_tac. Qed.

Lemma for_down_preserve {St : Type} (P : St -> Prop) (body : Z -> St -> St) cnt i s :
  P s -> (forall k s, i - Z.of_nat cnt < k <= i -> P s -> P (body k s)) ->
  P (for_down cnt i body s).
Proof.
  intros H0 Hs. apply (for_down_inv (fun _ s => P s)); auto.
Qed.

Lemma zeros_mat_shape r c : 0 <= r -> 0 <= c -> shape (zeros_mat r c) r c.
Proof.
  intros Hr Hc. unfold zeros_mat, zeros. split.
  - rewrite repeat_length. lia.
  - apply Forall_forall. intros row Hin. apply repeat_spec in Hin. subst row.
    rewrite repeat_length. lia.
Qed.

Lemma householder_shape n m A : shape A m n -> shape (hA (householder n m A)) m n.
Proof.
  intros H. unfold householder, loop_up.
  apply (for_up_preserve (fun st => shape (hA st) m n)); [exact H|].
  intros k st _ HA. unfold hh_step. cbv zeta.
  pose proof (hh_col_shape n m (hA st) k HA) as H1.
  destruct (hh_col n m (hA st) k) as [[A1 g1] s1]. cbn [fst] in H1.
  pose proof (hh_row_shape n m A1 (vset (hrv1 st) k (hscale st * hg st)%float) k H1) as H2.
  destruct (hh_row n m A1 _ k) as [[[A2 r2] g2] s2]. exact H2.
Qed.

Lemma acc_right_shape n A rv1 g l V :
  shape V n n -> shape (fst (fst (acc_right n A rv1 g l V))) n n.
Proof.
  intros H. unfold acc_right, loop_down.
  apply (for_down_preserve (fun st => shape (fst (fst st)) n n)); [exact H|].
  intros k [[V1 g1] l1] _ HV. cbn [fst] in HV. unfold acc_right_step. cbv zeta.
  shape_tac.
Qed.

Lemma acc_left_shape n m w A : shape A m n -> shape (acc_left n m w A) m n.
Proof.
  intros H. unfold acc_left, loop_down.
  apply (for_down_preserve (fun A => shape A m n)); [exact H|].
  intros k A1 _ HA. unfold acc_left_step. cbv zeta. shape_tac.
Qed.

Lemma rotate_shape cnt c1 c2 c s M r k :
  shape M r k -> shape (rotate cnt c1 c2 c s M) r k.
Proof. intros H. unfold rotate. cbv zeta. shape_tac. Qed.

Lemma negate_column_shape n k V r c : shape V r c -> shape (negate_column n k V) r c.
Proof. intros H. unfold negate_column. shape_tac. Qed.

Lemma cancel_loop_shape m fuel tst1 l1 i c s A w rv1 A' w' rv1' r k :
  shape A r k -> cancel_loop m fuel tst1 l1 i c s A w rv1 = (A', w', rv1') -> shape A' r k.
Proof.
  revert i c s A w rv1. induction fuel as [|fuel IH]; intros i c s A w rv1 HA E;
    simpl in E.
  - congruence.
  - destruct (negligible _ _).
    + congruence.
    + eapply IH; [apply rotate_shape; exact HA | exact E].
Qed.

Lemma qr_sweep_shape n m l k A V w rv1 :
  shape A m n -> shape V n n ->
  shape (dA (qr_sweep n m l k A V w rv1)) m n /\ shape (dV (qr_sweep n m l k A V w rv1)) n n.
Proof.
  intros HA HV. unfold qr_sweep, loop_up. cbv zeta.
  match goal with
  | |- context [for_up ?c ?i (qr_step n m) ?s0] =>
      assert (Hloop : match for_up c i (qr_step n m) s0 with
                      | (A', V', _, _, _, _, _, _) => shape A' m n /\ shape V' n n end);
      [apply (for_up_preserve (fun st =>
          match st with (A', V', _, _, _, _, _, _) => shape A' m n /\ shape V' n n end));
       [split; assumption|];
       intros i1 [[[[[[[A1 V1] w1] r1] c1] s1] f1] x1] _ [HA1 HV1];
       unfold qr_step; cbv beta iota zeta;
       match goal with |- context [if negb ?b then _ else _] => destruct (negb b) end;
       (split; [apply rotate_shape; exact HA1 | apply rotate_shape; exact HV1])
      |];
      destruct (for_up c i (qr_step n m) s0) as [[[[[[[A2 V2] w2] r2] c2] s2] f2] x2]
  end.
  exact Hloop.
Qed.

Lemma sweep_shape n m tst1 k st st' b :
  dshape n m st -> sweep n m tst1 k st = Ok (st', b) -> dshape n m st'.
Proof.
  intros [HA HV]. unfold sweep.
  destruct (split_search _ _ _ _ _ _) as [[[l l1] dc]|e]; [|discriminate].
  destruct (if dc then _ else _) as [[A w] rv1] eqn:Ec.
  assert (HA' : shape A m n).
  { destruct dc; [eapply cancel_loop_shape; eauto | injection Ec as <- _ _; exact HA]. }
  destruct (negb (l =? k)).
  - intros E. injection E as <- _. apply qr_sweep_shape; assumption.
  - destruct (vget w k <? 0)%float; intros E; injection E as <- _; split; cbn [dA dV];
      auto using negate_column_shape.
Qed.

Lemma kloop_shape n m tst1 k fuel : forall its st st',
  dshape n m st -> kloop n m fuel its tst1 k st = Ok st' -> dshape n m st'.
Proof.
  induction fuel as [|fuel IH]; intros its st st' H E; simpl in E; [discriminate|].
  destruct (its + 1 >? SVD_NMAX); [discriminate|].
  destruct (sweep n m tst1 k st) as [[st1 []]|e] eqn:Es; [| |discriminate].
  - injection E as <-. eapply sweep_shape; eauto.
  - eapply IH; [eapply sweep_shape; eauto | exact E].
Qed.

Lemma diag_targets_shape n m tst1 cnt : forall k st st',
  dshape n m st -> diag_targets n m tst1 cnt k st = Ok st' -> dshape n m st'.
Proof.
  induction cnt as [|cnt IH]; intros k st st' H E; cbn [diag_targets] in E.
  - congruence.
  - unfold diag_k in E.
    destruct (kloop n m _ 0 tst1 k st) as [st1|e] eqn:E1; [|discriminate].
    eapply IH; [eapply kloop_shape; eauto | exact E].
Qed.

Lemma svd_ok_dims n m A U w V :
  shape A m n -> svd n m A = Ok (U, w, V) ->
  shape U m n /\ Z.of_nat (length w) = n /\ shape V n n.
Proof.
  intros HA. unfold svd. destruct (negb ((0 <? m) && (0 <? n))) eqn:Hmn; [discriminate|].
  apply negb_false_iff, andb_true_iff in Hmn. destruct Hmn as [Hm Hn].
  apply Z.ltb_lt in Hm, Hn.
  destruct (svd_prepare_state n m A Hn) as (_ & Hl & _).
  assert (Hs : dshape n m (snd (svd_prepare n m A))).
  { unfold svd_prepare. cbv zeta.
    pose proof (acc_right_shape n (hA (householder n m A)) (hrv1 (householder n m A))
                  (hg (householder n m A)) n (zeros_mat n n)
                  (zeros_mat_shape n n ltac:(lia) ltac:(lia))) as HV.
    destruct (acc_right _ _ _ _ _ _) as [[V0 g0] l0]. cbn [fst] in HV.
    split; [apply acc_left_shape, householder_shape, HA | exact HV]. }
  destruct (svd_prepare n m A) as [tst1 st0]. cbn [snd] in Hl, Hs.
  destruct (diag_targets n m tst1 (Z.to_nat n) (n - 1) st0) as [st'|e] eqn:Ed;
    [|discriminate].
  intros E. injection E as <- <- <-.
  destruct (diag_targets_shape _ _ _ _ _ _ _ Hs Ed) as [HU HV].
  split; [exact HU|]. split; [|exact HV].
  destruct (diag_targets_w n m tst1 (Z.to_nat n) (n - 1) st0 st') as [Hl' _];
    [lia | lia | intros j Hj; lia | exact Ed | lia].
Qed.

(** ** [svd_invs] divides by every [w[k]], [k < min(n, m)] *)

Lemma is_finite_SF x :
  is_finite x = match Prim2SF x with S754_zero _ | S754_finite _ _ _ => true | _ => false end.
Proof.
  unfold is_finite, is_nan, is_infinity. rewrite !eqb_spec, abs_spec.
  change (Prim2SF infinity) with (S754_infinity false).
  destruct (Prim2SF x) as [[]|[]| |[] mx ex]; try reflexivity;
    unfold SFeqb, SFcompare; rewrite ?Z.compare_refl, ?Pos.compare_cont_refl; reflexivity.
Qed.

Lemma div_by_zero_not_finite x z : (z =? 0)%float = true -> is_finite (x / z) = false.
Proof.
  rewrite eqb_spec. change (Prim2SF 0%float) with (S754_zero false).
  intros Hz. rewrite is_finite_SF, div_spec.
  destruct (Prim2SF z) as [sz|sz| |sz mz ez]; try (destruct sz; discriminate);
    destruct (Prim2SF x) as [sx|sx| |sx mx ex]; reflexivity.
Qed.

Lemma mul_not_finite x y : is_finite x = false -> is_finite (x * y) = false.
Proof.
  rewrite !is_finite_SF, mul_spec.
  destruct (Prim2SF x) as [sx|sx| |sx mx ex]; try discriminate; intros _;
    destruct (Prim2SF y) as [sy|sy| |sy my ey]; reflexivity.
Qed.

Lemma add_not_finite_l x y : is_finite x = false -> is_finite (x + y) = false.
Proof.
  rewrite !is_finite_SF, add_spec.
  destruct (Prim2SF x) as [sx|sx| |sx mx ex]; try discriminate; intros _;
    destruct (Prim2SF y) as [sy|sy| |sy my ey]; try destruct sx; try destruct sy;
    reflexivity.
Qed.

Lemma add_not_finite_r x y : is_finite y = false -> is_finite (x + y) = false.
Proof.
  rewrite !is_finite_SF, add_spec.
  destruct (Prim2SF y) as [sy|sy| |sy my ey]; try discriminate; intros _;
    destruct (Prim2SF x) as [sx|sx| |sx mx ex]; try destruct sx; try destruct sy;
    reflexivity.
Qed.

(** A sum in doubles that meets an infinite or NaN term ends infinite or NaN. *)
Lemma fold_sum_not_finite (t : Z -> float) l : forall a,
  (is_finite a = false \/ exists k, In k l /\ is_finite (t k) = false) ->
  is_finite (fold_left (fun acc k => (acc + t k)%float) l a) = false.
Proof.
  induction l as [|k0 l IH]; intros a H; simpl.
  - destruct H as [H|(k & [] & _)]. exact H.
  - apply IH. destruct H as [H|(k & [<-|Hk] & Ht)].
    + left. apply add_not_finite_l. exact H.
    + left. apply add_not_finite_r. exact Ht.
    + right. eauto.
Qed.

(** X: [svd_invs] divides column [k] of V by [w[k]] for every
    [k < min(n, m)] without testing it: when one of these [w[k]] is zero
    (for instance a value [svd_sort] set to [0.]), every entry of the
    returned [AT] is infinite or NaN. *)
Theorem svd_invs_zero_singular_value n m st k :
  shape (iV st) n n -> shape (iAT st) n m ->
  0 <= k < Z.min n m -> (vget (iw st) k =? 0)%float = true ->
  forall i j, 0 <= i < n -> 0 <= j < m ->
    is_finite (mget (iAT (svd_invs n m st)) i j) = false.
Proof.
  intros HV HAT Hk Hw i j Hi Hj. unfold svd_invs. cbn [iAT].
  rewrite (svd_invs_AT n m (Z.min n m)) by auto.
  apply fold_sum_not_finite. right. exists k. split.
  - unfold zseq. apply In_zlist. lia.
  - destruct (svd_invs_vtemp n m (iV st) (iw st) HV) as [_ Hvt].
    rewrite Hvt by lia. destruct (Z.ltb_spec k (Z.min n m)); [|lia].
    apply mul_not_finite, div_by_zero_not_finite. exact Hw.
Qed.

(** ** [cmp_iv] *)


(** X: [cmp_iv] is antisymmetric, and it reports a NaN equal to every
    value, on both sides: [qsort] is then handed a comparison under which
    [x ~ NaN ~ y] holds for any [x] and [y]. *)
Theorem cmp_iv_antisym_nan v1 v2 :
  cmp_iv v2 v1 = - cmp_iv v1 v2 /\
  (is_nan v1 = true -> cmp_iv v1 v2 = 0 /\ cmp_iv v2 v1 = 0).
Proof.
  split.
  - unfold cmp_iv.
    destruct (v2 <? v1)%float eqn:E1; destruct (v1 <? v2)%float eqn:E2; try reflexivity.
    apply ltb_asym in E1. congruence.
  - intros H. unfold cmp_iv. rewrite (ltb_nan_l v1 v2 H), (ltb_nan_r v2 v1 H). auto.
Qed.

(** The target [k = 0] collapses at the first pass: [rv1[0] = 0] is
    negligible unless [tst1] is a NaN. *)
Lemma sweep_target_0 n m tst1 st :
  is_nan tst1 = false -> vget (drv1 st) 0 = 0%float ->
  exists st', sweep n m tst1 0 st = Ok (st', true).
Proof.
  intros Hn H0. unfold sweep. change (Z.to_nat (0 + 1)) with 1%nat. cbn [split_search].
  rewrite H0, (negligible_zero _ Hn). cbn.
  destruct (vget (dw st) 0 <? 0)%float; eexists; reflexivity.
Qed.

(** X: for a single column ([n = 1]) [svd] returns normally exactly when
    [m > 0] and [tst1] is not a NaN: it never fails to converge. *)
Theorem svd_single_column m A :
  (exists r, svd 1 m A = Ok r) <-> 0 < m /\ is_nan (htst1 (householder 1 m A)) = false.
Proof.
  destruct (svd_prepare_state 1 m A ltac:(lia)) as (Ht & Hl & H0).
  unfold svd. destruct (negb ((0 <? m) && (0 <? 1))) eqn:Hmn.
  - split; [intros [r E]; discriminate|]. intros [Hm _].
    apply Z.ltb_lt in Hm. rewrite Hm in Hmn. discriminate.
  - apply negb_false_iff, andb_true_iff in Hmn. destruct Hmn as [Hm _].
    apply Z.ltb_lt in Hm.
    destruct (svd_prepare 1 m A) as [tst1 st0]. cbn [fst snd] in Ht, Hl, H0. subst tst1.
    destruct (is_nan (htst1 (householder 1 m A))) eqn:Hnan.
    + rewrite diag_targets_nan by (auto; lia). split; [intros [r E]; discriminate|].
      intros [_ H]. discriminate.
    + split; [intros _; auto|intros _].
      destruct (sweep_target_0 1 m (htst1 (householder 1 m A)) st0 Hnan H0) as [st' Es].
      change (Z.to_nat 1) with 1%nat. cbn [diag_targets]. unfold diag_k.
      change (Z.to_nat SVD_NMAX + 1)%nat with 41%nat. cbn [kloop].
      change (1 - 1) with 0. rewrite Es. cbn. eexists; reflexivity.
Qed.



(** No entry of the [w] that [svd] returns is negative. *)
Lemma svd_ok_not_negative n m A U w V :
  svd n m A = Ok (U, w, V) -> forall i, 0 <= i < n -> (vget w i <? 0)%float = false.
Proof.
  unfold svd. destruct (negb ((0 <? m) && (0 <? n))) eqn:Hmn; [discriminate|].
  apply negb_false_iff, andb_true_iff in Hmn. destruct Hmn as [_ Hn].
  apply Z.ltb_lt in Hn.
  destruct (svd_prepare_state n m A Hn) as (_ & Hl0 & _).
  destruct (svd_prepare n m A) as [tst1 st0]. cbn [snd] in Hl0.
  destruct (diag_targets n m tst1 (Z.to_nat n) (n - 1) st0) as [st'|e] eqn:Ed;
    [|discriminate].
  intros E. injection E as _ <- _.
  destruct (diag_targets_w n m tst1 (Z.to_nat n) (n - 1) st0 st') as [_ Hs];
    [lia | lia | intros j Hj; lia | exact Ed |].
  intros i Hi. apply Hs. lia.
Qed.

Lemma thresholded_not_negative wmax x :
  (x <? 0)%float = false -> (thresholded wmax x <? 0)%float = false.
Proof. unfold thresholded. destruct (negligible_sv wmax x); auto. Qed.

(** X: [main]'s sequence [svd] then [svd_sort]: for every permutation
    [pos] of [0..n-1], so whatever order [qsort] returns (with or without a
    NaN in [w]), no sorted and thresholded singular value is negative. *)
Theorem svd_then_sort n m A U w V pos :
  shape A m n -> svd n m A = Ok (U, w, V) -> Permutation pos (zseq n) ->
  forall i, 0 <= i < n -> (vget (snd (fst (svd_sort n m pos U w V))) i <? 0)%float = false.
Proof.
  intros HA E Hpos.
  destruct (svd_ok_dims n m A U w V HA E) as (HU & Hw & HV).
  pose proof (svd_ok_not_negative n m A U w V E) as Hnn.
  pose proof (svd_sort_result n m pos U w V HU Hw HV) as R.
  destruct (svd_sort n m pos U w V) as [[U' w'] V']. cbn [fst snd].
  destruct R as (_ & _ & _ & Hwv & _).
  intros i Hi. rewrite Hwv by exact Hi.
  apply thresholded_not_negative, Hnn.
  apply (perm_zseq_range n pos Hpos). exact Hi.
Qed.

(** X: the loop for target [k] never changes [w[j]] for [j > k]: a
    singular value, once its own loop has ended, is final. *)
Theorem kloop_keeps_converged n m fuel its tst1 k st st' :
  0 <= k < Z.of_nat (length (dw st)) -> kloop n m fuel its tst1 k st = Ok st' ->
  Z.of_nat (length (dw st')) = Z.of_nat (length (dw st)) /\
  forall j, k < j -> vget (dw st') j = vget (dw st) j.
Proof.
  intros Hk E. destruct (kloop_w n m fuel its tst1 k st st' Hk E) as (Hl & Hv & _).
  split; [rewrite Hl; reflexivity | exact Hv].
Qed.

(** X: EISPACK's invariant: the Householder reduction leaves [rv1[0] = 0],
    the value that stops every split search at [l = 0]. *)
Theorem householder_rv1_first n m A : 0 < n -> vget (hrv1 (householder n m A)) 0 = 0%float.
Proof. apply householder_rv1_0. Qed.

(** X: the split search from [l = k] (lines 342-357), when [tst1] is not a
    NaN and [rv1[0] = 0], stops at some [0 <= l <= k] without reading outside
    [w], and it asks for a cancellation only at an [l >= 1]. *)
Theorem split_search_bounded tst1 w rv1 k :
  is_nan tst1 = false -> vget rv1 0 = 0%float -> 0 <= k < Z.of_nat (length w) ->
  exists l l1 dc, split_search (Z.to_nat (k + 1)) tst1 w rv1 k (-1) = Ok (l, l1, dc) /\
    0 <= l <= k /\ (dc = true -> 1 <= l).
Proof.
  intros Hn H0 Hk. apply split_search_in_bounds; auto; lia.
Qed.



Lemma svd_invs_zero_singular_value_witness :
  is_finite (mget (iAT (svd_invs 1 1 (IS ([[5]])%float ([[1]])%float ([0])%float
                                      ([[1]])%float))) 0 0) = false.
Proof.
  apply (svd_invs_zero_singular_value 1 1 _ 0);
    [cbn [iV]; solve_shape | cbn [iAT]; solve_shape | lia | reflexivity | lia | lia].
Defined.

Lemma svd_then_sort_witness :
  PrimFloat.ltb (vget (snd (fst (svd_sort 2 2 [1; 0]
      ([[0.70710678118654746; 0.70710678118654768];
        [-0.70710678118654757; 0.70710678118654746]])%float
      ([2; 4])%float
      ([[0.70710678118654757; 0.70710678118654746];
        [-0.70710678118654746; 0.70710678118654757]])%float))) 1) 0%float = false.
Proof.
  apply (svd_then_sort 2 2 ([[3; 1]; [1; 3]])%float);
    [solve_shape | vm_compute; reflexivity | vm_compute; apply perm_swap | lia].
Defined.

(** On a 3 by 3 input, the loop for target [k = 1], run on the state the
    loop for [k = 2] left, rewrites [w[1]] and keeps the settled [w[2]]. *)
Lemma kloop_keeps_converged_witness :
  exists st1 st2,
    diag_k 3 3 (fst (svd_prepare 3 3 ([[4; 1; 0]; [1; 3; 1]; [0; 1; 2]])%float)) 2
      (snd (svd_prepare 3 3 ([[4; 1; 0]; [1; 3; 1]; [0; 1; 2]])%float)) = Ok st1 /\
    kloop 3 3 (Z.to_nat SVD_NMAX + 1) 0
      (fst (svd_prepare 3 3 ([[4; 1; 0]; [1; 3; 1]; [0; 1; 2]])%float)) 1 st1 = Ok st2 /\
    (vget (dw st2) 1 =? vget (dw st1) 1)%float = false /\
    Z.of_nat (length (dw st2)) = Z.of_nat (length (dw st1)) /\
    vget (dw st2) 2 = vget (dw st1) 2.
Proof.
  match goal with |- context [diag_k ?a ?b ?c ?d ?e] =>
    remember (diag_k a b c d e) as r1 eqn:E1 end.
  vm_compute in E1. subst r1.
  match goal with |- exists s1 s2, Ok ?X = Ok s1 /\ _ => exists X end.
  match goal with |- context [kloop ?a ?b ?c ?d ?e ?f ?g] =>
    destruct (kloop a b c d e f g) as [st2|e'] eqn:E2 end;
    [|vm_compute in E2; discriminate E2].
  exists st2. split; [reflexivity|]. split; [reflexivity|].
  pose proof E2 as E2c. vm_compute in E2c. injection E2c as E2c.
  match type of E2 with kloop ?a ?b ?c ?d ?e ?f ?g = _ =>
    destruct (kloop_keeps_converged a b c d e f g st2) as [H1 H2];
      [split; [lia | vm_compute; reflexivity] | exact E2 |] end.
  split; [rewrite <- E2c; vm_compute; reflexivity|].
  split; [exact H1 | apply H2; lia].
Defined.

Lemma householder_rv1_first_witness :
  vget (hrv1 (householder 2 2 ([[3; 1]; [1; 3]])%float)) 0 = 0%float.
Proof. apply householder_rv1_first. lia. Defined.

Lemma split_search_bounded_witness :
  exists l l1 dc, split_search (Z.to_nat (2 + 1)) 1%float ([1; 1; 1])%float
                    ([0; 5; 5])%float 2 (-1) = Ok (l, l1, dc) /\
    0 <= l <= 2 /\ (dc = true -> 1 <= l).
Proof.
  apply split_search_bounded; [reflexivity | reflexivity | split; [lia | reflexivity]].
Defined.
